(** * build-news.mjs: a shallow embedding and its properties

    The build script fetches news entries from a content API, renders their
    rich-text bodies to HTML, splices listing cards into NEWS.html and
    writes per-article pages, a sitemap and an RSS feed.  This file embeds
    the helpers ([slugify], [esc]), the environment-trying fetch loop, the
    asset map, the rich-text renderer ([renderRich], [splitLead],
    [richToPlain]) and the card splice ([newsPage]), and proves the
    properties the specification states about them.

    JavaScript strings are sequences of UTF-16 code units: a string is a
    [list N], one number per code unit, so that [length], [slice] and the
    regular expressions of the script (none has the [u] flag) work per
    code unit as they do in the source. *)

From Stdlib Require Import ZArith NArith List Ascii String Lia DecimalString.
From stdpp Require Import gmap list.

Local Open Scope N_scope.

(** ** Strings *)

Abbreviation jsstring := (list N).

(** The string literal [s] as code units (ASCII literals only). *)
Definition js (s : string) : jsstring :=
  List.map N_of_ascii (list_ascii_of_string s).

(** Truthiness of a string: every string but the empty one. *)
Definition truthy (s : jsstring) : bool :=
  match s with [] => false | _ :: _ => true end.

(** [v || empty] for an optional string field. *)
Definition orEmpty (v : option jsstring) : jsstring :=
  match v with Some s => s | None => [] end.

(** White space and line terminators, as [String.prototype.trim] strips
    them: TAB, LF, VT, FF, CR, SP, NBSP, the Zs category, LS, PS and the
    byte order mark. *)
Definition isWhiteSpace (c : N) : bool :=
  ((0x09 <=? c) && (c <=? 0x0D)) || (c =? 0x20) || (c =? 0xA0)
  || (c =? 0x1680) || ((0x2000 <=? c) && (c <=? 0x200A))
  || (c =? 0x2028) || (c =? 0x2029) || (c =? 0x202F) || (c =? 0x205F)
  || (c =? 0x3000) || (c =? 0xFEFF).

Fixpoint trimStart (s : jsstring) : jsstring :=
  match s with
  | [] => []
  | c :: r => if isWhiteSpace c then trimStart r else s
  end.

Fixpoint trimEnd (s : jsstring) : jsstring :=
  match s with
  | [] => []
  | c :: r =>
      match trimEnd r with
      | [] => if isWhiteSpace c then [] else [c]
      | r' => c :: r'
      end
  end.

Definition trim (s : jsstring) : jsstring := trimEnd (trimStart s).

(** [s.slice(0, n)]: a negative [n] counts from the end of the string. *)
Definition slice0 (s : jsstring) (n : Z) : jsstring :=
  if (n <? 0)%Z
  then take (Z.to_nat (Z.of_nat (length s) + n)) s
  else take (Z.to_nat n) s.

(** ** Helpers: [slugify] and [esc] *)

Definition hyphen : N := 0x2D.

(** The character class [[a-z0-9]]. *)
Definition isLowerAlnum (c : N) : bool :=
  ((0x61 <=? c) && (c <=? 0x7A)) || ((0x30 <=? c) && (c <=? 0x39)).

(** [.replace(/[^a-z0-9]+/g, hyphen)]: every maximal run of code units
    outside [[a-z0-9]] becomes one hyphen.  [inRun] says that the scan is
    inside such a run, whose hyphen has been written already. *)
Fixpoint replaceRuns (inRun : bool) (s : jsstring) : jsstring :=
  match s with
  | [] => []
  | c :: r =>
      if isLowerAlnum c then c :: replaceRuns false r
      else if inRun then replaceRuns true r
      else hyphen :: replaceRuns true r
  end.

(** [.replace(/(^-|-$)/g, empty)]: the first alternative can only match at
    index 0 and the second only at the last index; the scan goes left to
    right, so the leading hyphen is removed first and the trailing one is
    looked for in what follows it. *)
Definition stripLeading (s : jsstring) : jsstring :=
  match s with
  | c :: r => if c =? hyphen then r else s
  | [] => []
  end.

Fixpoint stripTrailing (s : jsstring) : jsstring :=
  match s with
  | [] => []
  | c :: r =>
      match r with
      | [] => if c =? hyphen then [] else [c]
      | _ :: _ => c :: stripTrailing r
      end
  end.

Section Slugify.

(** [String.prototype.toLowerCase] is the runtime's Unicode lower-casing;
    the script only relies on it through [slugify], which takes it here
    as a parameter. *)
Variable toLowerCase : jsstring -> jsstring.

Definition slugify (s : jsstring) : jsstring :=
  stripTrailing (stripLeading (replaceRuns false (toLowerCase (trim s)))).

End Slugify.

(** Lower-casing of the ASCII range, which is what [toLowerCase] does on
    a string of ASCII code units. *)
Definition asciiLower (s : jsstring) : jsstring :=
  List.map (fun c => if (0x41 <=? c) && (c <=? 0x5A) then c + 0x20 else c) s.

(** [esc]: the replacement table of the callback. *)
Definition escUnit (c : N) : jsstring :=
  if c =? 0x26 then js "&amp;"
  else if c =? 0x3C then js "&lt;"
  else if c =? 0x3E then js "&gt;"
  else if c =? 0x22 then js "&quot;"
  else if c =? 0x27 then js "&#39;"
  else [c].

(** [.replace(/[...]/g, c => table[c])], the class holding the five
    characters of [escUnit]. *)
Definition esc (s : jsstring) : jsstring := List.concat (List.map escUnit s).

(** ** Fetch: the loop over the environment candidates *)

(** What the script can throw. *)
Inductive buildError :=
| AuthError                              (* 401 or 403 from the content API *)
| CouldNotFetch (checked : list jsstring) (* no candidate gave the entries *)
| FetchRejected                          (* [fetch] itself rejected *)
| BadJson.                               (* [res.json()] rejected *)

Inductive outcome (A : Type) :=
| Done (a : A)
| Threw (e : buildError).
Arguments Done {A} a.
Arguments Threw {A} e.

(** [Array.from(new Set(l))]: duplicates go, first occurrences stay in
    their order. *)
Fixpoint dedupe (seen l : list jsstring) : list jsstring :=
  match l with
  | [] => []
  | x :: r =>
      if bool_decide (x ∈ seen) then dedupe seen r
      else x :: dedupe (x :: seen) r
  end.

(** [envCandidates], from the optional CONTENTFUL_ENV variable. *)
Definition envCandidates (envVar : option jsstring) : list jsstring :=
  let ENV_FROM_VAR := if truthy (orEmpty envVar) then orEmpty envVar
                      else js "master" in
  dedupe [] [ENV_FROM_VAR; js "master"; js "main"].

Section Fetch.

(** The parsed payload, any JSON value. *)
Variable payload : Type.

Record response := { status : Z; body : option payload }.

(** [res.ok]: the status is in the range 200-299. *)
Definition ok (r : response) : bool :=
  ((200 <=? status r) && (status r <=? 299))%Z.

(** The state of the world outside the script. *)
Variable World : Type.

(** The truthiness of a parsed payload: null, false, 0 and the empty
    string are falsy, objects and arrays are truthy. *)
Variable truthyData : payload -> bool.

(** The network: a request changes the state of the world and gives a
    response, or rejects ([None]). *)
Variable fetch : World -> jsstring -> jsstring -> World * option response.

Variables SPACE TOKEN : jsstring.

Definition entriesUrl (envId : jsstring) : jsstring :=
  js "https://cdn.contentful.com/spaces/" ++ SPACE ++ js "/environments/"
  ++ envId
  ++ js "/entries?content_type=newsBlog&order=-fields.date&include=2&limit=1000".

(** One line of the log: the candidate tried and what came back. *)
Local Abbreviation exchange := (jsstring * option response)%type.

(** The [for] loop.  It returns the world it leaves, the exchanges in
    the order they were made and how the loop ended:
    [Done (Some (data, ENV_USED))] after [break], [Done None] when the
    candidates ran out, [Threw] when the body threw. *)
Fixpoint envLoop (w : World) (envs : list jsstring)
  : World * list exchange * outcome (option (payload * jsstring)) :=
  match envs with
  | [] => (w, [], Done None)
  | envId :: rest =>
      let (w', res) := fetch w (entriesUrl envId) (js "Bearer " ++ TOKEN) in
      match res with
      | None => (w', [(envId, res)], Threw FetchRejected)
      | Some r =>
          if ok r then
            match body r with
            | Some data => (w', [(envId, res)], Done (Some (data, envId)))
            | None => (w', [(envId, res)], Threw BadJson)
            end
          else if ((status r =? 401) || (status r =? 403))%Z then
            (w', [(envId, res)], Threw AuthError)
          else
            let '(w'', log, out) := envLoop w' rest in
            (w'', (envId, res) :: log, out)
      end
  end.

(** The loop followed by [if (!data) throw ...]: the log of the
    exchanges and the data with ENV_USED, or the error thrown.  [data]
    is null when the candidates ran out, and it is tested for
    truthiness: a successful answer whose body parses to a falsy value
    ends in the same error as no answer at all. *)
Definition fetchEntries (w : World) (envs : list jsstring)
  : list exchange * outcome (payload * jsstring) :=
  let '(_, log, out) := envLoop w envs in
  (log,
   match out with
   | Done (Some (data, ENV_USED)) =>
       if truthyData data then Done (data, ENV_USED)
       else Threw (CouldNotFetch envs)
   | Done None => Threw (CouldNotFetch envs)
   | Threw e => Threw e
   end).

(** What the loop does with one answer: stop with an outcome, or go on
    ([None]). *)
Definition verdict (envId : jsstring) (res : option response)
  : option (outcome (option (payload * jsstring))) :=
  match res with
  | None => Some (Threw FetchRejected)
  | Some r =>
      if ok r then
        Some (match body r with
              | Some d => Done (Some (d, envId))
              | None => Threw BadJson
              end)
      else if ((status r =? 401) || (status r =? 403))%Z then Some (Threw AuthError)
      else None
  end.

Definition isAuthFailure (r : response) : Prop :=
  (status r = 401 \/ status r = 403)%Z.

End Fetch.

Arguments status {payload} r.
Arguments body {payload} r.
Arguments ok {payload} r.
Arguments envLoop {payload World} fetch SPACE TOKEN w envs.
Arguments fetchEntries {payload World} truthyData fetch SPACE TOKEN w envs.
Arguments verdict {payload} envId res.
Arguments isAuthFailure {payload} r.

Abbreviation exchange payload := (jsstring * option (response payload))%type.

(** ** The asset map *)

Record imageDims := { img_width : option N; img_height : option N }.
Record fileDetails := { image : option imageDims }.
Record assetFile := { file_url : option jsstring; details : option fileDetails }.
Record assetFields := {
  file : option assetFile;
  title : option jsstring;
  description : option jsstring }.
Record asset := { sys_id : jsstring; fields : assetFields }.

(** A value of the map. *)
Record assetInfo := {
  url : jsstring;
  info_title : jsstring;
  desc : jsstring;
  width : option N;
  height : option N }.

(** [n || null] for an optional number: 0 is falsy. *)
Definition orNull (n : option N) : option N :=
  match n with
  | Some 0 => None
  | _ => n
  end.

(** The callback of [.map]: the value stored for one asset. *)
Definition assetValue (a : asset) : assetInfo :=
  let file_ := file (fields a) in
  let details_ := file_ ≫= details in
  let imgDims := details_ ≫= image in
  {| url := js "https:" ++ orEmpty (file_ ≫= file_url);
     info_title := orEmpty (title (fields a));
     desc := orEmpty (description (fields a));
     width := orNull (imgDims ≫= img_width);
     height := orNull (imgDims ≫= img_height) |}.

(** [new Map(pairs)] sets the pairs one after the other: of two assets
    with the same id the later one stays. *)
Definition assetMap (assets : list asset) : gmap jsstring assetInfo :=
  foldl (fun m a => <[sys_id a := assetValue a]> m) ∅ assets.

(** ** Rich text *)

(** [node.data]: the link target of a hyperlink and, for an embedded
    asset, the id at the end of [data?.target?.sys?.id]. *)
Record nodeData := { uri : option jsstring; target_id : option jsstring }.

(** A node of the document tree, with the fields the script reads.  Every
    field but [nodeType] may be absent. *)
#[warnings="-register-all"]
Inductive node := Node {
  nodeType : jsstring;
  value : option jsstring;
  marks : option (list jsstring);   (* the [type] of each mark *)
  data : option nodeData;
  content : option (list node) }.

(** [nodes || []]. *)
Definition orNil {A} (l : option (list A)) : list A :=
  match l with Some l => l | None => [] end.

Definition streq (a b : jsstring) : bool := bool_decide (a = b).

Fixpoint startsWith (s pre : jsstring) : bool :=
  match pre, s with
  | [], _ => true
  | p :: pre', c :: s' => (c =? p) && startsWith s' pre'
  | _ :: _, [] => false
  end.

(** [t.split(hyphen)[1]] for a [t] that starts with the eight code units
    of heading-: what lies between the first hyphen and the next one. *)
Fixpoint untilHyphen (s : jsstring) : jsstring :=
  match s with
  | [] => []
  | c :: r => if c =? hyphen then [] else c :: untilHyphen r
  end.

Definition headingLevel (t : jsstring) : jsstring := untilHyphen (drop 8 t).

Definition dq : jsstring := [0x22].

(** A number in a template literal, for the numbers the script prints:
    the pixel width and height of an image, natural numbers below
    10^21, which JavaScript writes as their decimal digits. *)
Definition numToString (n : N) : jsstring :=
  js (NilEmpty.string_of_uint (N.to_uint n)).

Definition tag (name inner : jsstring) : jsstring :=
  js "<" ++ name ++ js ">" ++ inner ++ js "</" ++ name ++ js ">".

(** One round of the loop over the marks of a text node. *)
Definition applyMark (out m : jsstring) : jsstring :=
  if streq m (js "bold") then tag (js "strong") out
  else if streq m (js "italic") then tag (js "em") out
  else if streq m (js "underline") then tag (js "u") out
  else if streq m (js "code") then tag (js "code") out
  else out.

Definition numTruthy (n : option N) : bool :=
  match n with
  | Some 0 | None => false
  | Some _ => true
  end.

(** The branch of [renderNode] for the two embedded-asset kinds. *)
Definition renderAsset (assets : gmap jsstring assetInfo) (d : option nodeData)
  : jsstring :=
  let id := d ≫= target_id in
  let asset := if truthy (orEmpty id) then assets !! orEmpty id else None in
  match asset with
  | None => []
  | Some a =>
      if negb (truthy (url a)) then []
      else
        let alt := esc (if truthy (info_title a) then info_title a else desc a) in
        let wh := if numTruthy (width a) && numTruthy (height a)
                  then js " width=" ++ dq ++ numToString (default 0 (width a)) ++ dq
                       ++ js " height=" ++ dq ++ numToString (default 0 (height a)) ++ dq
                  else [] in
        js "<figure><img src=" ++ dq ++ url a ++ dq
        ++ js " alt=" ++ dq ++ alt ++ dq
        ++ js " class=" ++ dq ++ js "news-image" ++ dq
        ++ js " loading=" ++ dq ++ js "lazy" ++ dq
        ++ js " decoding=" ++ dq ++ js "async" ++ dq
        ++ wh ++ js "></figure>"
  end.

Section Render.

Variable assets : gmap jsstring assetInfo.

Fixpoint renderNode (n : node) : jsstring :=
  let renderNodes (nodes : option (list node)) : jsstring :=
    match nodes with
    | None => []
    | Some l =>
        (fix go (l : list node) : jsstring :=
           match l with
           | [] => []
           | x :: r => renderNode x ++ go r
           end) l
    end in
  let t := nodeType n in
  if streq t (js "text") then
    fold_left applyMark (orNil (marks n)) (esc (orEmpty (value n)))
  else if streq t (js "paragraph") then tag (js "p") (renderNodes (content n))
  else if startsWith t (js "heading-") then
    tag (js "h" ++ headingLevel t) (renderNodes (content n))
  else if streq t (js "unordered-list") then tag (js "ul") (renderNodes (content n))
  else if streq t (js "ordered-list") then tag (js "ol") (renderNodes (content n))
  else if streq t (js "list-item") then tag (js "li") (renderNodes (content n))
  else if streq t (js "blockquote") then tag (js "blockquote") (renderNodes (content n))
  else if streq t (js "hr") then js "<hr/>"
  else if streq t (js "hyperlink") then
    let href := if truthy (orEmpty (data n ≫= uri))
                then esc (orEmpty (data n ≫= uri)) else js "#" in
    js "<a href=" ++ dq ++ href ++ dq ++ js " target=" ++ dq ++ js "_blank" ++ dq
    ++ js " rel=" ++ dq ++ js "noopener" ++ dq ++ js ">"
    ++ renderNodes (content n) ++ js "</a>"
  else if streq t (js "embedded-asset-block") || streq t (js "embedded-asset-inline")
  then renderAsset assets (data n)
  else renderNodes (content n).

(** [renderNodes]: render each node and join with the empty string. *)
Definition renderNodes (nodes : option (list node)) : jsstring :=
  List.concat (List.map renderNode (orNil nodes)).

Definition renderRich (rt : option node) : jsstring :=
  match rt ≫= content with
  | None => []
  | Some c => renderNodes (Some c)
  end.

End Render.

(** ** [splitLead] *)

Definition isParagraph (n : node) : bool := streq (nodeType n) (js "paragraph").

(** The loop of [splitLead]; [push] appends at the end. *)
Fixpoint splitLoop (take_ taken : Z) (nodes outLead outRest : list node)
  : list node * list node :=
  match nodes with
  | [] => (outLead, outRest)
  | n :: rest =>
      if (taken <? take_)%Z && isParagraph n
      then splitLoop take_ (taken + 1)%Z rest (outLead ++ [n]) outRest
      else splitLoop take_ taken rest outLead (outRest ++ [n])
  end.

Definition document (c : list node) : node :=
  {| nodeType := js "document"; value := None; marks := None; data := None;
     content := Some c |}.

Record leadRest := { lead : node; rest : node }.

Definition splitLead (rt : option node) (take_ : Z) : leadRest :=
  let (outLead, outRest) := splitLoop take_ 0 (orNil (rt ≫= content)) [] [] in
  {| lead := document outLead; rest := document outRest |}.

(** ** [richToPlain] *)

Section Walk.

Variable max : Z.

Definition full (buf : jsstring) : bool := (max <=? Z.of_nat (length buf))%Z.

(** [walk] on a node, threading [buf]. *)
Fixpoint walk (n : node) (buf : jsstring) : jsstring :=
  if full buf then buf
  else
    let buf := if streq (nodeType n) (js "text")
               then buf ++ orEmpty (value n) else buf in
    match content n with
    | None => buf
    | Some c =>
        (* walk(n.content): the array case *)
        if full buf then buf
        else (fix each (l : list node) (buf : jsstring) : jsstring :=
                match l with
                | [] => buf
                | x :: r => each r (walk x buf)
                end) c buf
    end.

Definition walkRoot (rt : option node) : jsstring :=
  match rt with
  | None => []
  | Some n => walk n []
  end.

End Walk.

Definition richToPlain (rt : option node) (max : Z) : jsstring :=
  esc (slice0 (trim (walkRoot max rt)) max).

(** ** The card splice into NEWS.html *)

Definition START_MARK : jsstring := js "<!-- START:NEWS-LIST -->".
Definition END_MARK : jsstring := js "<!-- END:NEWS-LIST -->".

(** The first occurrence of [pat] in [s]: what is before it and what is
    after it. *)
Fixpoint splitFirst (pat s : jsstring) : option (jsstring * jsstring) :=
  if startsWith s pat then Some ([], drop (length pat) s)
  else
    match s with
    | [] => None
    | c :: r =>
        match splitFirst pat r with
        | Some (pre, post) => Some (c :: pre, post)
        | None => None
        end
    end.

(** The match of the regular expression
    [(START_MARK)([\s\S]*?)(END_MARK)]: the leftmost start marker that an
    end marker follows, and, the middle group being lazy, the first end
    marker after it.  An end marker that follows a later start marker
    follows the first one as well, so the leftmost start marker decides.
    The result is the text before the match, the middle group and the
    text after the match. *)
Definition matchMarkers (tpl : jsstring)
  : option (jsstring * jsstring * jsstring) :=
  match splitFirst START_MARK tpl with
  | None => None
  | Some (pre, afterStart) =>
      match splitFirst END_MARK afterStart with
      | None => None
      | Some (mid, post) => Some (pre, mid, post)
      end
  end.

Definition dollar : N := 0x24.

Definition isDigit (c : N) : bool := (0x30 <=? c) && (c <=? 0x39).

Definition digitVal (c : N) : nat := N.to_nat (c - 0x30).

(** [GetSubstitution] of ECMA-262 for a replacement string, without named
    groups: [$$], [$&], the text before and after the match, and [$n],
    [$nn] for the groups. *)
Fixpoint getSubstitution (captures : list jsstring) (matched pre post : jsstring)
    (template : jsstring) : jsstring :=
  let go := getSubstitution captures matched pre post in
  let m := length captures in
  let group (i : nat) := default [] (captures !! (i - 1)%nat) in
  match template with
  | [] => []
  | c :: r =>
      if negb (c =? dollar) then c :: go r
      else
        match r with
        | [] => [c]
        | d :: r' =>
            if d =? dollar then dollar :: go r'
            else if d =? 0x26 then matched ++ go r'
            else if d =? 0x60 then pre ++ go r'
            else if d =? 0x27 then post ++ go r'
            else if isDigit d then
              let one :=
                if bool_decide (1 <= digitVal d <= m)%nat
                then group (digitVal d) ++ go r'
                else c :: d :: go r' in
              match r' with
              | [] => one
              | d2 :: r'' =>
                  if isDigit d2 then
                    let index := (10 * digitVal d + digitVal d2)%nat in
                    if bool_decide (index <= m)%nat then
                      if bool_decide (1 <= index)%nat then group index ++ go r''
                      else c :: d :: d2 :: go r''
                    else one
                  else one
              end
            else c :: go r
        end
  end.

(** [newsTpl.replace(regexp, template)] with the cards in the template. *)
Definition newsPage (newsTpl cards : jsstring) : jsstring :=
  match matchMarkers newsTpl with
  | None => newsTpl
  | Some (pre, mid, post) =>
      pre
      ++ getSubstitution [START_MARK; mid; END_MARK]
           (START_MARK ++ mid ++ END_MARK) pre post
           (js "$1" ++ [0x0A] ++ cards ++ [0x0A] ++ js "$3")
      ++ post
  end.

(** ** What the specification says, as definitions *)

(** A well-formed slug: lowercase ASCII letters, digits and hyphens only,
    no two hyphens in a row, no hyphen at either end. *)
Definition slugUnit (c : N) : Prop :=
  0x61 <= c <= 0x7A \/ 0x30 <= c <= 0x39 \/ c = 0x2D.

Definition wellFormedSlug (s : jsstring) : Prop :=
  Forall slugUnit s
  /\ (forall i : nat, s !! i = Some hyphen -> s !! S i <> Some hyphen)
  /\ head s <> Some hyphen
  /\ last s <> Some hyphen.

(** The same, decided by one scan: [afterHyphen] forbids a hyphen at the
    head. *)
Fixpoint slugFrom (afterHyphen : bool) (s : jsstring) : bool :=
  match s with
  | [] => true
  | c :: r =>
      if c =? hyphen then negb afterHyphen && slugFrom true r
      else isLowerAlnum c && slugFrom false r
  end.

(** An example network for the fetch loop: it answers by the table
    [answers], one line per environment, rejects a request for any other
    address, and counts the requests it has seen. *)
Definition tableNet {P} (space : jsstring) (answers : list (jsstring * response P))
    (seen : nat) (address auth : jsstring) : nat * option (response P) :=
  (S seen,
   snd <$> List.find (fun a => streq (entriesUrl space (fst a)) address) answers).

Definition stagingMasterMain : list jsstring :=
  [js "staging"; js "master"; js "main"].

(** Staging is not there, master and main are. *)
Definition net404 : nat -> jsstring -> jsstring -> nat * option (response jsstring) :=
  tableNet (js "sp4ce")
    [(js "staging", {| status := 404; body := None |});
     (js "master", {| status := 200; body := Some (js "entries of master") |});
     (js "main", {| status := 200; body := Some (js "entries of main") |})].

(** Staging is not there and master answers 200 with a body that is the
    empty JSON string, a falsy value as null is.  The payloads of these
    example networks are JSON strings, whose truthiness is [truthy]. *)
Definition netFalsy : nat -> jsstring -> jsstring -> nat * option (response jsstring) :=
  tableNet (js "sp4ce")
    [(js "staging", {| status := 404; body := None |});
     (js "master", {| status := 200; body := Some [] |});
     (js "main", {| status := 200; body := Some (js "entries of main") |})].

(** Staging is not there and the token is refused on master. *)
Definition net401 : nat -> jsstring -> jsstring -> nat * option (response jsstring) :=
  tableNet (js "sp4ce")
    [(js "staging", {| status := 404; body := None |});
     (js "master", {| status := 401; body := None |});
     (js "main", {| status := 200; body := Some (js "entries of main") |})].

(** The five HTML-significant characters: ampersand, less-than,
    greater-than, double quote and single quote. *)
Definition htmlSignificant (c : N) : Prop :=
  c = 0x26 \/ c = 0x3C \/ c = 0x3E \/ c = 0x22 \/ c = 0x27.

(** The inline tag of a mark. *)
Definition markTag (m : jsstring) : option jsstring :=
  if streq m (js "bold") then Some (js "strong")
  else if streq m (js "italic") then Some (js "em")
  else if streq m (js "underline") then Some (js "u")
  else if streq m (js "code") then Some (js "code")
  else None.

(** The wrappers of a text node read from the outside in: the last mark
    of the list is the outermost tag, around what the marks before it
    have built; a mark of another type adds nothing. *)
Fixpoint wrapOutward (marksRev : list jsstring) (inner : jsstring) : jsstring :=
  match marksRev with
  | [] => inner
  | m :: earlier =>
      match markTag m with
      | Some t =>
          js "<" ++ t ++ js ">" ++ wrapOutward earlier inner ++ js "</" ++ t ++ js ">"
      | None => wrapOutward earlier inner
      end
  end.

(** The two kinds of embedded media. *)
Definition isEmbedded (n : node) : Prop :=
  nodeType n = js "embedded-asset-block" \/ nodeType n = js "embedded-asset-inline".

(** Example nodes. *)
Definition textNode (v : string) (ms : list jsstring) : node :=
  {| nodeType := js "text"; value := Some (js v); marks := Some ms;
     data := None; content := None |}.

Definition blockNode (kind : string) (c : list node) : node :=
  {| nodeType := js kind; value := None; marks := None; data := None;
     content := Some c |}.

Definition mediaNode (id : jsstring) : node :=
  {| nodeType := js "embedded-asset-block"; value := None; marks := None;
     data := Some {| uri := None; target_id := Some id |}; content := Some [] |}.

Definition imageAsset (id : jsstring) (address : string) : asset :=
  {| sys_id := id;
     fields := {| file := Some {| file_url := Some (js address); details := None |};
                  title := Some (js "Logo"); description := None |} |}.

(** ** [splitLead] as a partition *)

(** The top-level nodes of a document. *)
Definition topLevel (d : option node) : list node := orNil (d ≫= content).

(** The number of paragraphs among the first [i] nodes. *)
Definition paragraphsBefore (c : list node) (i : nat) : nat :=
  length (List.filter isParagraph (take i c)).

(** Node [i] belongs to the lead when it is a paragraph and fewer than [n]
    paragraphs come before it. *)
Definition inLead (n : Z) (c : list node) (i : nat) : bool :=
  match c !! i with
  | Some x => isParagraph x && (Z.of_nat (paragraphsBefore c i) <? n)%Z
  | None => false
  end.

(** One boolean per position: does the node go to the lead? *)
Definition leadMask (n : Z) (c : list node) : list bool :=
  List.map (inLead n c) (seq 0 (length c)).

(** The nodes at the positions the mask selects, in their order. *)
Fixpoint pick (mask : list bool) (c : list node) : list node :=
  match mask, c with
  | b :: m, x :: r => if b then x :: pick m r else pick m r
  | _, _ => []
  end.

(** The lead's nodes put back at the positions of the mask, the rest's
    nodes filling the gaps. *)
Fixpoint reassemble (mask : list bool) (l r : list node) : list node :=
  match mask with
  | [] => []
  | true :: m =>
      match l with
      | x :: l' => x :: reassemble m l' r
      | [] => reassemble m [] r
      end
  | false :: m =>
      match r with
      | x :: r' => x :: reassemble m l r'
      | [] => reassemble m l []
      end
  end.

(** The mask as the loop of [splitLead] decides it, node after node. *)
Fixpoint scanMask (take_ taken : Z) (nodes : list node) : list bool :=
  match nodes with
  | [] => []
  | n :: rest =>
      if (taken <? take_)%Z && isParagraph n
      then true :: scanMask take_ (taken + 1)%Z rest
      else false :: scanMask take_ taken rest
  end.

(** An example body: a heading, two paragraphs, a rule, a third
    paragraph. *)
Definition exampleBody : node :=
  document [blockNode "heading-2" [textNode "News" []];
            blockNode "paragraph" [textNode "first" []];
            blockNode "paragraph" [textNode "second" []];
            blockNode "hr" [];
            blockNode "paragraph" [textNode "third" []]].

(** ** [richToPlain] and the text of a document *)

(** The values of the text nodes, depth first. *)
Fixpoint textValues (n : node) : list jsstring :=
  (if streq (nodeType n) (js "text") then [orEmpty (value n)] else [])
  ++ match content n with
     | None => []
     | Some c =>
         (fix each (l : list node) : list jsstring :=
            match l with
            | [] => []
            | x :: r => textValues x ++ each r
            end) c
     end.

Definition textValuesOf (rt : option node) : list jsstring :=
  match rt with
  | None => []
  | Some n => textValues n
  end.

(** The buffer after the values [vals] have come by: a value is added
    only while the buffer is shorter than [max]. *)
Fixpoint accumulate (max : Z) (vals : list jsstring) (buf : jsstring) : jsstring :=
  match vals with
  | [] => buf
  | v :: r => if full max buf then buf else accumulate max r (buf ++ v)
  end.

(** A string that [trim] leaves as it is. *)
Definition trimmed (s : jsstring) : Prop := trim s = s.

(** Induction on a node with the property known of its children. *)
Section NodeInduction.

Variable P : node -> Prop.
Hypothesis step : forall n, Forall P (orNil (content n)) -> P n.

Fixpoint node_nested_ind (n : node) : P n :=
  match n with
  | Node t v ms d c =>
      step (Node t v ms d c)
        (match c as c0 return Forall P (orNil c0) with
         | None => List.Forall_nil P
         | Some l =>
             (fix all (l : list node) : Forall P l :=
                match l with
                | [] => List.Forall_nil P
                | x :: r => List.Forall_cons P x r (node_nested_ind x) (all r)
                end) l
         end)
  end.

End NodeInduction.

(** The body of the example of the specification, and a body whose text
    begins with two spaces. *)
Definition helloBody : node :=
  document [blockNode "paragraph" [textNode "Hello " []; textNode "<world>" []]].

Definition indentedBody : node :=
  document [blockNode "paragraph" [textNode "  ab" []; textNode "cd" []]].

(** ** The marker pair of the listing template *)

(** The template has a start marker and, after it, an end marker. *)
Definition hasMarkerPair (tpl : jsstring) : Prop :=
  exists a b c, tpl = a ++ START_MARK ++ b ++ END_MARK ++ c.

(** A listing page whose markers were lost, one that has them, and a
    card. *)
Definition bareTemplate : jsstring :=
  js "<html><head></head><body><main></main></body></html>".

Definition markedTemplate : jsstring :=
  js "<main><!-- START:NEWS-LIST -->old<!-- END:NEWS-LIST --></main>".

Definition exampleCard : jsstring :=
  js "<article class=news-item><h2>Launch</h2></article>".

(** * The rest of the script *)

(** ** [renderNewsImage] *)

(** [attrs.join(sep)]. *)
Fixpoint joinWith (sep : jsstring) (l : list jsstring) : jsstring :=
  match l with
  | [] => []
  | [x] => x
  | x :: r => x ++ sep ++ joinWith sep r
  end.

(** The object the two callers pass: [src] and [alt] are strings there,
    [width] and [height] numbers or null. *)
Record newsImage := {
  src : jsstring;
  alt : jsstring;
  im_width : option N;
  im_height : option N }.

Definition attr (name : string) (v : jsstring) : jsstring :=
  js name ++ js "=" ++ dq ++ v ++ dq.

(** [i] is the index of the card; the article pages pass 0. *)
Definition renderNewsImage (img : option newsImage) (i : nat) : jsstring :=
  match img with
  | None => []
  | Some im =>
      if negb (truthy (src im)) then []
      else
        let attrs :=
          [attr "src" (src im);
           attr "alt" (esc (alt im));
           attr "class" (js "news-image");
           attr "loading" (if (i =? 0)%nat then js "eager" else js "lazy");
           attr "decoding" (js "async");
           attr "fetchpriority" (if (i =? 0)%nat then js "high" else js "low")]
          ++ (if numTruthy (im_width im) && numTruthy (im_height im)
              then [attr "width" (numToString (default 0 (im_width im)));
                    attr "height" (numToString (default 0 (im_height im)))]
              else []) in
        js "<img " ++ joinWith (js " ") attrs ++ js ">"
  end.

(** ** Entries *)

(** [it.fields], every field optional; [e_image] is [f.image.sys.id]. *)
Record entryFields := {
  e_title : option jsstring;
  e_slug : option jsstring;
  e_link : option jsstring;
  e_image : option jsstring;
  e_body : option node }.

Record entry := { entry_id : jsstring; entry_fields : entryFields }.

(** [a || b] on strings. *)
Definition orElse (a b : jsstring) : jsstring := if truthy a then a else b.

(** [f.slug ? slugify(f.slug) : slugify(f.title || it.sys.id)]. *)
Definition entrySlug (toLowerCase : jsstring -> jsstring) (it : entry) : jsstring :=
  let f := entry_fields it in
  if truthy (orEmpty (e_slug f)) then slugify toLowerCase (orEmpty (e_slug f))
  else slugify toLowerCase (orElse (orEmpty (e_title f)) (entry_id it)).

(** The image object of a card or of an article page: [imgObj] looked
    up in the asset map, and the object built from it. *)
Definition heroImage (assets : gmap jsstring assetInfo) (it : entry)
  : option newsImage :=
  let f := entry_fields it in
  let imgObj := e_image f ≫= (fun id => assets !! id) in
  match imgObj with
  | None => None
  | Some o =>
      Some {| src := url o;
              alt := orElse (orEmpty (e_title f)) (info_title o);
              im_width := width o;
              im_height := height o |}
  end.

(** [rest?.content?.length > 0] of a card. *)
Definition hasMore (r : node) : bool :=
  match content r with
  | Some (_ :: _) => true
  | _ => false
  end.

(** The [urls] of the sitemap. *)
Definition sitemapUrls (toLowerCase : jsstring -> jsstring) (items : list entry)
  : list jsstring :=
  js "https://esegames.com/NEWS"
  :: List.map (fun it => js "https://esegames.com/news/"
                          ++ entrySlug toLowerCase it ++ js "/") items.

(** ** Case-insensitive regular expressions *)

(** The regular expressions with the [i] flag have no [u] flag and
    patterns of ASCII characters: a code unit matches a pattern character
    when both have the same ASCII upper case (a code unit outside ASCII
    is never canonicalized into ASCII). *)
Definition asciiUpperUnit (c : N) : N :=
  if (0x61 <=? c) && (c <=? 0x7A) then c - 0x20 else c.

Definition unitEqCI (c p : N) : bool := asciiUpperUnit c =? asciiUpperUnit p.

Fixpoint startsWithCI (s pat : jsstring) : bool :=
  match pat, s with
  | [], _ => true
  | p :: pat', c :: s' => unitEqCI c p && startsWithCI s' pat'
  | _ :: _, [] => false
  end.

(** The first match of the pattern in [s], whatever its case: the text
    before it, the text matched and the text after it. *)
Fixpoint splitFirstCI (pat s : jsstring) : option (jsstring * jsstring * jsstring) :=
  if startsWithCI s pat
  then Some ([], take (length pat) s, drop (length pat) s)
  else
    match s with
    | [] => None
    | c :: r =>
        match splitFirstCI pat r with
        | Some (pre, m, post) => Some (c :: pre, m, post)
        | None => None
        end
    end.

(** ** The header and the footer of NEWS.html *)

(** [newsTpl.match(/(<name[\s\S]*?<\/name>)/i)], then group 1 or the
    empty string: from the first opening of the landmark to the first
    closing tag after it. *)
Definition landmark (name : string) (newsTpl : jsstring) : jsstring :=
  match splitFirstCI (js "<" ++ js name) newsTpl with
  | None => []
  | Some (_, opening, afterOpening) =>
      match splitFirstCI (js "</" ++ js name ++ js ">") afterOpening with
      | None => []
      | Some (inner, closing, _) => opening ++ inner ++ closing
      end
  end.

Definition headerHTML (newsTpl : jsstring) : jsstring := landmark "header" newsTpl.
Definition footerHTML (newsTpl : jsstring) : jsstring := landmark "footer" newsTpl.

(** ** The RSS link in the head of NEWS.html *)

(** The regular expression of the test, tried at the head of [s]: the
    rel attribute, white space (one or more), the type attribute.  The
    type attribute does not begin with white space, so taking all the
    white space is the only way to match. *)
Definition relAlternate : jsstring := js "rel=" ++ dq ++ js "alternate" ++ dq.
Definition typeRss : jsstring := js "type=" ++ dq ++ js "application/rss+xml" ++ dq.

Definition rssLinkAt (s : jsstring) : bool :=
  startsWithCI s relAlternate
  && match drop (length relAlternate) s with
     | c :: r => isWhiteSpace c && startsWithCI (trimStart r) typeRss
     | [] => false
     end.

(** [regexp.test(newsPage)]: a match at some index. *)
Fixpoint hasRssLink (s : jsstring) : bool :=
  rssLinkAt s
  || match s with
     | [] => false
     | _ :: r => hasRssLink r
     end.

(** The replacement of the closing head tag; it has no dollar sign. *)
Definition rssLinkLine : jsstring :=
  js "  <link " ++ relAlternate ++ js " " ++ typeRss
  ++ js " title=" ++ dq ++ [0xC9; 0x53; 0xC8] ++ js "GAMES News" ++ dq
  ++ js " href=" ++ dq ++ js "/news.xml" ++ dq ++ js ">" ++ [0x0A] ++ js "</head>".

(** [if (!test) newsPage = newsPage.replace(/<\/head>/i, line)]. *)
Definition ensureRssLink (page : jsstring) : jsstring :=
  if hasRssLink page then page
  else
    match splitFirstCI (js "</head>") page with
    | None => page
    | Some (pre, _, post) => pre ++ rssLinkLine ++ post
    end.

(** ** More of what the properties speak of *)

(** The maximal runs of [[a-z0-9]] in a string; [cur] is the run being
    read. *)
Fixpoint alnumRuns (cur s : jsstring) : list jsstring :=
  match s with
  | [] => if truthy cur then [cur] else []
  | c :: r =>
      if isLowerAlnum c then alnumRuns (cur ++ [c]) r
      else (if truthy cur then [cur] else []) ++ alnumRuns [] r
  end.

(** No less-than sign directly followed by an exclamation mark: no
    comment begins in such a text. *)
Fixpoint noCommentStart (s : jsstring) : bool :=
  match s with
  | [] => true
  | c :: r =>
      match r with
      | [] => true
      | d :: _ => negb ((c =? 0x3C) && (d =? 0x21)) && noCommentStart r
      end
  end.

(** None of the four characters that [esc] replaces by an entity without
    leaving one behind: less-than, greater-than and the two quotes. *)
Definition inert (c : N) : Prop :=
  c <> 0x3C /\ c <> 0x3E /\ c <> 0x22 /\ c <> 0x27.

(** An entry with a title only, and one with a hero image. *)
Definition titledEntry (t : string) : entry :=
  {| entry_id := js "6Kx1"; 
     entry_fields := {| e_title := Some (js t); e_slug := None; e_link := None;
                        e_image := None; e_body := None |} |}.

Definition heroEntry : entry :=
  {| entry_id := js "6Kx2";
     entry_fields := {| e_title := Some (js "Launch day"); e_slug := None;
                        e_link := None; e_image := Some (js "logo1");
                        e_body := Some exampleBody |} |}.

Definition pageWithHead : jsstring :=
  js "<html><HEAD><title>News</title></HEAD><body><header class=top>menu</header></body></html>".

(** A network that knows none of the three environments. *)
Definition netGone : nat -> jsstring -> jsstring -> nat * option (response jsstring) :=
  tableNet (js "sp4ce")
    [(js "staging", {| status := 404; body := None |});
     (js "master", {| status := 404; body := None |});
     (js "main", {| status := 404; body := None |})].

(** [m] is the pattern up to the case of its ASCII letters. *)
Definition matchesCI (m pat : jsstring) : Prop :=
  length m = length pat /\ startsWithCI m pat = true.

(** The template has an opening of the landmark and, after it, a closing
    tag, in any case. *)
Definition hasLandmark (name : string) (tpl : jsstring) : Prop :=
  exists a o b c d,
    tpl = a ++ o ++ b ++ c ++ d
    /\ matchesCI o (js "<" ++ js name)
    /\ matchesCI c (js "</" ++ js name ++ js ">").

(** The page has a closing head tag, in any case. *)
Definition hasHeadClose (page : jsstring) : Prop :=
  exists a m b, page = a ++ m ++ b /\ matchesCI m (js "</head>").

(** * Properties *)

(** ** Code units *)

Lemma hyphen_not_alnum c : (c =? hyphen) = true -> isLowerAlnum c = false.
Proof.
  intros H. apply N.eqb_eq in H. subst c. reflexivity.
Qed.

Lemma alnum_range c :
  isLowerAlnum c = true <-> (0x61 <= c <= 0x7A \/ 0x30 <= c <= 0x39).
Proof.
  unfold isLowerAlnum.
  rewrite orb_true_iff, !andb_true_iff, !N.leb_le. tauto.
Qed.

Lemma alnum_not_space c : isLowerAlnum c = true -> isWhiteSpace c = false.
Proof.
  rewrite alnum_range. intros H. unfold isWhiteSpace.
  repeat match goal with
         | |- context [c =? ?k] => rewrite (proj2 (N.eqb_neq c k)) by lia
         end.
  rewrite (proj2 (N.leb_gt c 0x0D)) by lia.
  rewrite (proj2 (N.leb_gt 0x2000 c)) by lia.
  by rewrite andb_false_r.
Qed.

Lemma alnum_slugUnit c : isLowerAlnum c = true -> slugUnit c.
Proof.
  unfold isLowerAlnum, slugUnit. intros H.
  apply orb_true_iff in H as [H | H]; apply andb_true_iff in H as [H1 H2];
    apply N.leb_le in H1, H2; lia.
Qed.

Lemma slugUnit_cases c :
  slugUnit c -> (c =? hyphen) = true \/ ((c =? hyphen) = false /\ isLowerAlnum c = true).
Proof.
  unfold slugUnit, isLowerAlnum, hyphen. intros H.
  destruct (N.eqb_spec c 0x2D) as [-> | Hne]; [by left | right].
  split; [done |].
  apply orb_true_iff.
  destruct H as [H | [H | H]]; [left | right | lia];
    apply andb_true_iff; split; apply N.leb_le; lia.
Qed.

(** ** [slugify] *)

Lemma replaceRuns_slugFrom b s : slugFrom b (replaceRuns b s) = true.
Proof.
  revert b. induction s as [| c r IH]; intros b; simpl; [done |].
  destruct (isLowerAlnum c) eqn:Hc.
  - simpl. destruct (N.eqb_spec c hyphen) as [-> | _]; [discriminate |].
    by rewrite Hc, IH.
  - destruct b; [apply IH |]. simpl. apply IH.
Qed.

Lemma stripLeading_slugFrom s :
  slugFrom false s = true -> slugFrom true (stripLeading s) = true.
Proof.
  destruct s as [| c r]; simpl; [done |].
  destruct (c =? hyphen) eqn:Hc; simpl; [done |].
  by rewrite Hc.
Qed.

Lemma stripTrailing_slugFrom s b :
  slugFrom b s = true ->
  slugFrom b (stripTrailing s) = true /\ last (stripTrailing s) <> Some hyphen.
Proof.
  revert b. induction s as [| c r IH]; intros b H; [done |].
  destruct r as [| d r'].
  - simpl in *. destruct (N.eqb_spec c hyphen) as [-> | Hne]; [done |].
    split; [| simpl; congruence].
    simpl. destruct (N.eqb_spec c hyphen); [done |]. done.
  - change (stripTrailing (c :: d :: r')) with (c :: stripTrailing (d :: r')).
    simpl in H. cbn [slugFrom].
    destruct (c =? hyphen) eqn:Hc.
    + apply andb_true_iff in H as [Hb H].
      destruct (IH true H) as [IH1 IH2].
      split; [by rewrite Hb, IH1 |].
      destruct (stripTrailing (d :: r')) as [| e t] eqn:Hs.
      * exfalso. simpl in Hs. destruct r'; [| discriminate].
        simpl in H. destruct (d =? hyphen); discriminate.
      * by rewrite last_cons_cons.
    + apply andb_true_iff in H as [Hb H].
      destruct (IH false H) as [IH1 IH2].
      split; [by rewrite Hb, IH1 |].
      destruct (stripTrailing (d :: r')) as [| e t] eqn:Hs.
      * simpl. intros [= ->]. discriminate.
      * by rewrite last_cons_cons.
Qed.

Lemma slugFrom_weaken b s : slugFrom b s = true -> slugFrom false s = true.
Proof.
  destruct s as [| c r]; simpl; [done |].
  destruct (c =? hyphen); [| done].
  intros H. by apply andb_true_iff in H as [_ ->].
Qed.

Lemma slugFrom_units b s : slugFrom b s = true -> Forall slugUnit s.
Proof.
  revert b. induction s as [| c r IH]; intros b H; [constructor |].
  simpl in H. destruct (N.eqb_spec c hyphen) as [-> | Hne].
  - apply andb_true_iff in H as [_ H]. constructor; [| by eapply IH].
    unfold slugUnit, hyphen. lia.
  - apply andb_true_iff in H as [Hc H]. constructor; [| by eapply IH].
    by apply alnum_slugUnit.
Qed.

Lemma slugFrom_no_double b s (i : nat) :
  slugFrom b s = true -> s !! i = Some hyphen -> s !! S i <> Some hyphen.
Proof.
  revert b i. induction s as [| c r IH]; intros b i H Hi; [done |].
  simpl in H. destruct i as [| i].
  - simpl in Hi. injection Hi as ->. simpl in H.
    apply andb_true_iff in H as [_ H].
    destruct r as [| d r']; [done |]. simpl in *.
    destruct (N.eqb_spec d hyphen) as [-> | Hne]; [done | congruence].
  - simpl in Hi. change ((c :: r) !! S (S i)) with (r !! S i).
    destruct (c =? hyphen); apply andb_true_iff in H as [_ H]; by eapply IH.
Qed.

Lemma slugFrom_head s : slugFrom true s = true -> head s <> Some hyphen.
Proof.
  destruct s as [| c r]; simpl; [done |].
  destruct (N.eqb_spec c hyphen) as [-> | Hne]; [done | congruence].
Qed.

Lemma slugFrom_wellFormed s :
  slugFrom true s = true -> last s <> Some hyphen -> wellFormedSlug s.
Proof.
  intros H Hl. repeat split.
  - by eapply slugFrom_units.
  - intros i. by eapply slugFrom_no_double.
  - by apply slugFrom_head.
  - done.
Qed.

Lemma wellFormed_slugFrom s : wellFormedSlug s -> slugFrom true s = true.
Proof.
  intros (Hu & Hd & Hh & _).
  assert (forall b, (b = true -> head s <> Some hyphen) -> slugFrom b s = true) as G.
  { clear Hh. induction Hu as [| c r Hc Hr IH]; intros b Hb; [done |].
    simpl. destruct (slugUnit_cases c Hc) as [E | [E A]]; rewrite E.
    - apply N.eqb_eq in E. subst c.
      destruct b; [by destruct Hb |]. simpl.
      apply IH.
      + intros i Hi. apply (Hd (S i)). exact Hi.
      + intros _. destruct r as [| d r']; [done |].
        simpl. intros [= ->]. by apply (Hd 0%nat).
    - rewrite A. simpl. apply IH; [| done].
      intros i Hi. apply (Hd (S i)). exact Hi. }
  by apply G.
Qed.

(** A well-formed slug goes through every stage of [slugify] unchanged. *)

Lemma trimStart_fixed s :
  head s <> Some hyphen -> Forall slugUnit s -> trimStart s = s.
Proof.
  intros Hh Hu. destruct Hu as [| c r Hc Hr]; [done |].
  simpl. destruct (slugUnit_cases c Hc) as [E | [_ A]].
  - apply N.eqb_eq in E. subst c. by destruct Hh.
  - by rewrite (alnum_not_space c A).
Qed.

Lemma hyphen_not_space : isWhiteSpace hyphen = false.
Proof. reflexivity. Qed.

Lemma trimEnd_fixed s : Forall slugUnit s -> trimEnd s = s.
Proof.
  induction 1 as [| c r Hc Hr IH]; [done |].
  simpl. rewrite IH. destruct r; [| done].
  destruct (slugUnit_cases c Hc) as [E | [_ A]].
  - apply N.eqb_eq in E. subst c. by rewrite hyphen_not_space.
  - by rewrite (alnum_not_space c A).
Qed.

Lemma replaceRuns_fixed b s : slugFrom b s = true -> replaceRuns b s = s.
Proof.
  revert b. induction s as [| c r IH]; intros b H; [done |].
  simpl in *. destruct (c =? hyphen) eqn:Hc.
  - rewrite (hyphen_not_alnum c Hc).
    apply andb_true_iff in H as [Hb H]. destruct b; [discriminate |].
    apply N.eqb_eq in Hc. subst c. by rewrite (IH true H).
  - apply andb_true_iff in H as [A H]. by rewrite A, (IH false H).
Qed.

Lemma stripLeading_fixed s : head s <> Some hyphen -> stripLeading s = s.
Proof.
  destruct s as [| c r]; simpl; [done |].
  destruct (N.eqb_spec c hyphen) as [-> | Hne]; [by intros [] | done].
Qed.

Lemma stripTrailing_fixed s : last s <> Some hyphen -> stripTrailing s = s.
Proof.
  induction s as [| c r IH]; [done |].
  destruct r as [| d r']; intros H.
  - simpl in *. destruct (N.eqb_spec c hyphen) as [-> | Hne]; [by destruct H | done].
  - change (stripTrailing (c :: d :: r')) with (c :: stripTrailing (d :: r')).
    rewrite IH; [done |]. by rewrite last_cons_cons in H.
Qed.

Section SlugifyFacts.

Variable toLowerCase : jsstring -> jsstring.

Lemma slugify_slugFrom x :
  slugFrom true (slugify toLowerCase x) = true
  /\ last (slugify toLowerCase x) <> Some hyphen.
Proof.
  unfold slugify. apply stripTrailing_slugFrom, stripLeading_slugFrom,
    replaceRuns_slugFrom.
Qed.

(** C10: for every input string, the slug consists only of lowercase
    ASCII letters, digits and hyphens, has no two hyphens in a row and
    neither begins nor ends with a hyphen. *)
Theorem slugify_wellFormed (x : jsstring) :
  wellFormedSlug (slugify toLowerCase x).
Proof.
  destruct (slugify_slugFrom x) as [H1 H2]. by apply slugFrom_wellFormed.
Qed.

(** What [slugify] needs of [toLowerCase]: a string of lowercase ASCII
    letters, digits and hyphens has no upper-case letter to change. *)
Hypothesis toLowerCase_slug :
  forall s, Forall slugUnit s -> toLowerCase s = s.

Lemma slugify_fixed s : wellFormedSlug s -> slugify toLowerCase s = s.
Proof.
  intros W. pose proof (wellFormed_slugFrom s W) as F.
  destruct W as (Hu & _ & Hh & Hl).
  unfold slugify, trim.
  rewrite (trimStart_fixed s Hh Hu), (trimEnd_fixed s Hu), (toLowerCase_slug s Hu).
  rewrite (replaceRuns_fixed false s (slugFrom_weaken _ _ F)).
  by rewrite (stripLeading_fixed s Hh), (stripTrailing_fixed s Hl).
Qed.

(** C5: slug derivation is idempotent, for every string. *)
Theorem slugify_idempotent (x : jsstring) :
  slugify toLowerCase (slugify toLowerCase x) = slugify toLowerCase x.
Proof.
  apply slugify_fixed, slugFrom_wellFormed; apply slugify_slugFrom.
Qed.

End SlugifyFacts.

Lemma asciiLower_slug s : Forall slugUnit s -> asciiLower s = s.
Proof.
  induction 1 as [| c r Hc Hr IH]; [done |].
  unfold asciiLower in *. simpl. rewrite IH. f_equal.
  unfold slugUnit in Hc.
  destruct (N.leb_spec 0x41 c), (N.leb_spec c 0x5A); simpl; try done; lia.
Qed.

(** The slug of a title, and a second pass over it. *)
Lemma slugify_idempotent_witness :
  slugify asciiLower (js "Hello, World!") = js "hello-world"
  /\ slugify asciiLower (slugify asciiLower (js "Hello, World!"))
     = slugify asciiLower (js "Hello, World!").
Proof.
  split; [reflexivity |].
  apply (slugify_idempotent asciiLower asciiLower_slug).
Defined.

(** ** The fetch loop *)

Section FetchFacts.

Context {payload World : Type}.
Variable truthyData : payload -> bool.
Variable fetch : World -> jsstring -> jsstring -> World * option (response payload).
Variables SPACE TOKEN : jsstring.

Local Abbreviation loop := (envLoop fetch SPACE TOKEN).
Local Abbreviation request w e := (fetch w (entriesUrl SPACE e) (js "Bearer " ++ TOKEN)).

Lemma auth_test (r : response payload) :
  ((status r =? 401) || (status r =? 403))%Z = true <-> isAuthFailure r.
Proof. unfold isAuthFailure. rewrite orb_true_iff, !Z.eqb_eq. tauto. Qed.

Lemma auth_not_ok (r : response payload) : isAuthFailure r -> ok r = false.
Proof.
  unfold isAuthFailure, ok. intros H.
  apply andb_false_iff. rewrite Z.leb_gt. lia.
Qed.

Lemma envLoop_cons w envId rest :
  loop w (envId :: rest) =
  let (w', res) := request w envId in
  match verdict envId res with
  | Some out => (w', [(envId, res)], out)
  | None => let '(w'', log, out) := loop w' rest in (w'', (envId, res) :: log, out)
  end.
Proof.
  cbn [envLoop]. destruct (request w envId) as [w' [r |]]; unfold verdict.
  - destruct (ok r); [by destruct (body r) |].
    by destruct ((status r =? 401) || (status r =? 403))%Z.
  - reflexivity.
Qed.

(** The requests go to a prefix of the candidates, in their order; an
    exchange on which the loop stops is the last one, and it decides
    how the loop ends. *)
Lemma envLoop_inv envs : forall w w' log out,
  loop w envs = (w', log, out) ->
  log.*1 = take (length log) envs
  /\ forall (i : nat) envId res, log !! i = Some (envId, res) ->
       forall stop, verdict envId res = Some stop ->
         length log = S i /\ out = stop.
Proof.
  induction envs as [| e rest IH]; intros w w' log out H.
  - simpl in H. injection H as <- <- <-. split; [done |]. by intros [].
  - rewrite envLoop_cons in H.
    destruct (request w e) as [w1 res].
    destruct (verdict e res) as [stop |] eqn:V.
    + injection H as <- <- <-. split; [done |].
      intros [| i] envId res' Hi stop' V'; simpl in Hi; [| done].
      injection Hi as <- <-. rewrite V in V'. by injection V' as <-.
    + destruct (loop w1 rest) as [[w2 log'] out'] eqn:L.
      injection H as <- <- <-.
      destruct (IH _ _ _ _ L) as [P Q]. split.
      * change (e :: log'.*1 = e :: take (length log') rest). by f_equal.
      * intros [| i] envId res' Hi stop' V'; simpl in Hi.
        -- injection Hi as <- <-. congruence.
        -- destruct (Q i envId res' Hi stop' V') as [Len ->].
           split; [| done]. simpl. by rewrite Len.
Qed.

Lemma envLoop_app pre : forall w w1 log1 rest,
  loop w pre = (w1, log1, Done None) ->
  loop w (pre ++ rest) =
  let '(w2, log2, out) := loop w1 rest in (w2, log1 ++ log2, out).
Proof.
  induction pre as [| e pre IH]; intros w w1 log1 rest H.
  - simpl in H. injection H as <- <-. simpl.
    by destruct (loop w rest) as [[? ?] ?].
  - change ((e :: pre) ++ rest) with (e :: (pre ++ rest)).
    rewrite envLoop_cons in *.
    destruct (request w e) as [w' res].
    destruct (verdict e res) as [stop |] eqn:V.
    + exfalso. injection H as _ _ ->.
      unfold verdict in V. destruct res as [r |]; [| done].
      destruct (ok r); [by destruct (body r) |].
      by destruct ((status r =? 401) || (status r =? 403))%Z.
    + destruct (loop w' pre) as [[w2 log'] out'] eqn:L.
      injection H as -> <- ->.
      rewrite (IH _ _ _ rest L).
      by destruct (loop w1 rest) as [[? ?] ?].
Qed.

Lemma fetchEntries_loop w envs log out :
  fetchEntries truthyData fetch SPACE TOKEN w envs = (log, out) ->
  exists w' out', loop w envs = (w', log, out')
    /\ out = match out' with
             | Done (Some (d, e)) =>
                 if truthyData d then Done (d, e)
                 else Threw (CouldNotFetch envs)
             | Done None => Threw (CouldNotFetch envs)
             | Threw e => Threw e
             end.
Proof.
  unfold fetchEntries. destruct (loop w envs) as [[w' log'] out'].
  intros [= <- <-]. eauto.
Qed.

Lemma log_candidate envs (log : list (exchange payload)) (i : nat) envId res :
  log.*1 = take (length log) envs ->
  log !! i = Some (envId, res) -> envs !! i = Some envId.
Proof.
  intros P Hi.
  assert (log.*1 !! i = Some envId) as H.
  { rewrite list_lookup_fmap. by rewrite Hi. }
  rewrite P in H. by apply lookup_take_Some in H as [H _].
Qed.

(** C3: when the request to a candidate returns HTTP 401 or 403, the
    build is aborted at once with the authorization error: that request
    is the last one made, so that no later candidate is asked, and the
    failure is not retried against another environment. *)
Theorem auth_failure_aborts (w : World) (envs : list jsstring)
    (log : list (exchange payload)) out (i : nat) envId r :
  fetchEntries truthyData fetch SPACE TOKEN w envs = (log, out) ->
  log !! i = Some (envId, Some r) ->
  isAuthFailure r ->
  out = Threw AuthError
  /\ envs !! i = Some envId
  /\ length log = S i
  /\ log.*1 = take (S i) envs.
Proof.
  intros F Hi A.
  destruct (fetchEntries_loop _ _ _ _ F) as (w' & out' & L & ->).
  destruct (envLoop_inv _ _ _ _ _ L) as [P Q].
  assert (verdict envId (Some r) = Some (Threw AuthError)) as V.
  { simpl. rewrite (auth_not_ok r A). by apply auth_test in A as ->. }
  destruct (Q i envId (Some r) Hi _ V) as [Len ->].
  repeat split; [by eapply log_candidate | done | by rewrite <- Len].
Qed.

(** C6, as the script has it: the outcome is decided by the first
    candidate whose request succeeds, and no request goes to a
    candidate after it; the data is the parsed payload of that answer
    when the payload is truthy, and a falsy payload ends in the
    could-not-fetch error; with the candidates staging, master and
    main, a 404 for staging and a 200 with a truthy payload for master,
    the payload is the one of master and main is never asked. *)
Theorem first_success_wins :
  (forall (w : World) envs (log : list (exchange payload)) out (i : nat) envId r,
      fetchEntries truthyData fetch SPACE TOKEN w envs = (log, out) ->
      log !! i = Some (envId, Some r) ->
      ok r = true ->
      envs !! i = Some envId
      /\ (forall (j : nat) e' r', (j < i)%nat ->
            log !! j = Some (e', Some r') -> ok r' = false)
      /\ length log = S i
      /\ log.*1 = take (S i) envs
      /\ forall d, body r = Some d ->
           out = if truthyData d then Done (d, envId)
                 else Threw (CouldNotFetch envs))
  /\ (forall (w w1 w2 : World) r1 r2 d,
      request w (js "staging") = (w1, Some r1) -> status r1 = 404%Z ->
      request w1 (js "master") = (w2, Some r2) -> status r2 = 200%Z ->
      body r2 = Some d -> truthyData d = true ->
      fetchEntries truthyData fetch SPACE TOKEN w stagingMasterMain
      = ([(js "staging", Some r1); (js "master", Some r2)],
         Done (d, js "master"))).
Proof.
  split.
  - intros w envs log out i envId r F Hi Hok.
    destruct (fetchEntries_loop _ _ _ _ F) as (w' & out' & L & ->).
    destruct (envLoop_inv _ _ _ _ _ L) as [P Q].
    assert (exists stop, verdict envId (Some r) = Some stop
              /\ forall d, body r = Some d -> stop = Done (Some (d, envId)))
      as (stop & V & Hd).
    { simpl. rewrite Hok. eexists. split; [done |]. by intros d ->. }
    destruct (Q i envId (Some r) Hi _ V) as [Len ->].
    repeat split.
    + by eapply log_candidate.
    + intros j e' r' Hj Hl.
      destruct (ok r') eqn:Hok'; [exfalso | done].
      assert (exists stop', verdict e' (Some r') = Some stop') as [stop' V'].
      { simpl. rewrite Hok'. eauto. }
      destruct (Q j e' (Some r') Hl _ V') as [Len' _]. lia.
    + done.
    + by rewrite <- Len.
    + intros d Hb. by rewrite (Hd d Hb).
  - intros w w1 w2 r1 r2 d R1 S1 R2 S2 B T.
    assert (verdict (js "staging") (Some r1) = None) as V1.
    { unfold verdict, ok. by rewrite S1. }
    assert (verdict (js "master") (Some r2)
            = Some (Done (Some (d, js "master")))) as V2.
    { unfold verdict, ok. by rewrite S2, B. }
    unfold fetchEntries, stagingMasterMain.
    by rewrite envLoop_cons, R1, V1, envLoop_cons, R2, V2, T.
Qed.

End FetchFacts.

(** The candidates of the script when CONTENTFUL_ENV is staging, on a
    network that refuses the token on master. *)
Lemma auth_failure_aborts_witness :
  let log := [(js "staging", Some {| status := 404; body := None |});
              (js "master", Some {| status := 401; body := None |})] in
  envCandidates (Some (js "staging")) = stagingMasterMain
  /\ fetchEntries truthy net401 (js "sp4ce") (js "t0ken") 0%nat stagingMasterMain
     = (log, Threw AuthError)
  /\ (@Threw (jsstring * jsstring) AuthError = Threw AuthError
      /\ stagingMasterMain !! 1%nat = Some (js "master")
      /\ length log = 2%nat
      /\ log.*1 = take 2 stagingMasterMain).
Proof.
  split; [reflexivity |]. split; [reflexivity |].
  apply (auth_failure_aborts truthy net401 (js "sp4ce") (js "t0ken") 0%nat
           stagingMasterMain _ _ 1%nat (js "master")
           {| status := 401; body := None |}).
  - reflexivity.
  - reflexivity.
  - left. reflexivity.
Defined.

(** The same candidates on a network where master answers with
    entries. *)
Lemma first_success_wins_witness :
  let log := [(js "staging", Some {| status := 404; body := None |});
              (js "master",
               Some {| status := 200; body := Some (js "entries of master") |})] in
  fetchEntries truthy net404 (js "sp4ce") (js "t0ken") 0%nat stagingMasterMain
  = (log, Done (js "entries of master", js "master"))
  /\ stagingMasterMain !! 1%nat = Some (js "master")
  /\ length log = 2%nat
  /\ log.*1 = take 2 stagingMasterMain.
Proof.
  cbv zeta. split.
  - apply (proj2 (first_success_wins truthy net404 (js "sp4ce") (js "t0ken"))
             0%nat 1%nat 2%nat); reflexivity.
  - destruct (proj1 (first_success_wins truthy net404 (js "sp4ce") (js "t0ken"))
                0%nat stagingMasterMain _ _ 1%nat (js "master")
                {| status := 200; body := Some (js "entries of master") |}
                eq_refl eq_refl eq_refl) as (C & _ & L & P & _).
    split; [exact C |]. split; [exact L | exact P].
Defined.

(** C6 as stated fails on a successful answer with a falsy payload:
    master is the first candidate whose request succeeds, with status
    200, its body parses to the empty string, and the outcome is not that
    payload but the could-not-fetch error; main is not asked. *)
Lemma first_success_falsy_counterexample :
  let answer := {| status := 200; body := Some ([] : jsstring) |} in
  fetchEntries truthy netFalsy (js "sp4ce") (js "t0ken") 0%nat stagingMasterMain
  = ([(js "staging", Some {| status := 404; body := None |});
      (js "master", Some answer)],
     Threw (CouldNotFetch stagingMasterMain))
  /\ ok answer = true
  /\ body answer = Some []
  /\ Threw (CouldNotFetch stagingMasterMain)
     <> Done (([] : jsstring), js "master").
Proof.
  cbv zeta. split; [reflexivity |]. split; [reflexivity |].
  split; [reflexivity | discriminate].
Qed.

(** ** The renderer *)

Section RenderFacts.

Variable assets : gmap jsstring assetInfo.

Lemma renderNode_eq n :
  renderNode assets n =
  let t := nodeType n in
  let inner := renderNodes assets (content n) in
  if streq t (js "text") then
    fold_left applyMark (orNil (marks n)) (esc (orEmpty (value n)))
  else if streq t (js "paragraph") then tag (js "p") inner
  else if startsWith t (js "heading-") then tag (js "h" ++ headingLevel t) inner
  else if streq t (js "unordered-list") then tag (js "ul") inner
  else if streq t (js "ordered-list") then tag (js "ol") inner
  else if streq t (js "list-item") then tag (js "li") inner
  else if streq t (js "blockquote") then tag (js "blockquote") inner
  else if streq t (js "hr") then js "<hr/>"
  else if streq t (js "hyperlink") then
    let href := if truthy (orEmpty (data n ≫= uri))
                then esc (orEmpty (data n ≫= uri)) else js "#" in
    js "<a href=" ++ dq ++ href ++ dq ++ js " target=" ++ dq ++ js "_blank" ++ dq
    ++ js " rel=" ++ dq ++ js "noopener" ++ dq ++ js ">"
    ++ inner ++ js "</a>"
  else if streq t (js "embedded-asset-block") || streq t (js "embedded-asset-inline")
  then renderAsset assets (data n)
  else inner.
Proof.
  destruct n as [t v ms d c].
  assert (renderNodes assets c =
          match c with
          | None => []
          | Some l =>
              (fix go (l : list node) : jsstring :=
                 match l with
                 | [] => []
                 | x :: r => renderNode assets x ++ go r
                 end) l
          end) as E.
  { destruct c as [l |]; [| done]. unfold renderNodes. simpl orNil.
    induction l as [| x r IH]; [done |]. simpl. by rewrite IH. }
  cbn [renderNode nodeType content marks value data]. cbv zeta.
  rewrite <- E. reflexivity.
Qed.

Lemma esc_app a b : esc (a ++ b) = esc a ++ esc b.
Proof. unfold esc. by rewrite map_app, concat_app. Qed.

Lemma escUnit_plain c : ~ htmlSignificant c -> escUnit c = [c].
Proof.
  unfold htmlSignificant, escUnit. intros H.
  repeat match goal with
         | |- context [c =? ?k] => rewrite (proj2 (N.eqb_neq c k)) by tauto
         end.
  done.
Qed.

(** A string without the five characters is left as it is. *)
Lemma esc_plain s : Forall (fun c => ~ htmlSignificant c) s -> esc s = s.
Proof.
  unfold esc. induction 1 as [| c r Hc Hr IH]; [done |].
  cbn [List.map List.concat]. by rewrite IH, escUnit_plain.
Qed.

(** Of the five characters only the ampersand is left in the escaped
    text, where it begins an entity. *)
Lemma esc_safe s :
  Forall (fun c => c <> 0x3C /\ c <> 0x3E /\ c <> 0x22 /\ c <> 0x27) (esc s).
Proof.
  unfold esc. induction s as [| c r IH]; [constructor |].
  cbn [List.map List.concat]. apply Forall_app. split; [| exact IH].
  unfold escUnit.
  repeat match goal with
         | |- context [c =? ?k] => destruct (N.eqb_spec c k)
         end; repeat constructor; try discriminate; try lia.
Qed.

Lemma applyMark_markTag out m :
  applyMark out m =
  match markTag m with
  | Some t => js "<" ++ t ++ js ">" ++ out ++ js "</" ++ t ++ js ">"
  | None => out
  end.
Proof.
  unfold applyMark, markTag, tag.
  repeat (destruct (streq m _); [reflexivity |]). reflexivity.
Qed.

Lemma fold_applyMark ms out :
  fold_left applyMark ms out = wrapOutward (rev ms) out.
Proof.
  revert out. induction ms as [| m ms IH] using rev_ind; intros out; [done |].
  rewrite fold_left_app, rev_unit. cbn [fold_left wrapOutward].
  by rewrite applyMark_markTag, IH.
Qed.


(** Evaluate the tests of [renderNode] once the node type is known. *)
Ltac eval_tests :=
  repeat match goal with
    | |- context [streq ?a ?b] =>
        let v := eval vm_compute in (streq a b) in change (streq a b) with v
    | |- context [startsWith ?a ?b] =>
        let v := eval vm_compute in (startsWith a b) in
        change (startsWith a b) with v
    end;
  cbv iota; cbn [orb].

Lemma renderNode_embedded n :
  isEmbedded n -> renderNode assets n = renderAsset assets (data n).
Proof.
  intros [H | H]; rewrite renderNode_eq; cbv zeta; rewrite H; by eval_tests.
Qed.

Lemma renderNodes_app pre post :
  renderNodes assets (Some (pre ++ post))
  = renderNodes assets (Some pre) ++ renderNodes assets (Some post).
Proof.
  unfold renderNodes. cbn [orNil]. by rewrite map_app, concat_app.
Qed.

Lemma renderNodes_cons n l :
  renderNodes assets (Some (n :: l))
  = renderNode assets n ++ renderNodes assets (Some l).
Proof. reflexivity. Qed.

(** C8: an embedded-media node whose identifier is not a key of the
    asset index renders as the empty string, without an error, and the
    nodes around it are rendered as if it were not there. *)
Theorem dangling_media_renders_empty (n : node) (id : jsstring) :
  isEmbedded n ->
  data n ≫= target_id = Some id ->
  assets !! id = None ->
  renderNode assets n = []
  /\ forall pre post,
       renderNodes assets (Some (pre ++ n :: post))
       = renderNodes assets (Some pre) ++ renderNodes assets (Some post).
Proof.
  intros E Hid Hnone.
  assert (renderNode assets n = []) as R.
  { rewrite (renderNode_embedded n E). unfold renderAsset.
    rewrite Hid. cbn [orEmpty]. rewrite Hnone. by destruct (truthy id). }
  split; [exact R |].
  intros pre post. by rewrite renderNodes_app, renderNodes_cons, R.
Qed.

End RenderFacts.


(** A paragraph, a reference to an asset that was not delivered, and a
    second paragraph. *)
Lemma dangling_media_renders_empty_witness :
  renderNode ∅ (mediaNode (js "gone")) = []
  /\ renderNodes ∅ (Some ([blockNode "paragraph" [textNode "one" []]]
                          ++ mediaNode (js "gone")
                          :: [blockNode "paragraph" [textNode "two" []]]))
     = js "<p>one</p><p>two</p>".
Proof.
  destruct (dangling_media_renders_empty ∅ (mediaNode (js "gone")) (js "gone"))
    as [R A].
  - left. reflexivity.
  - reflexivity.
  - reflexivity.
  - split; [exact R |]. rewrite A. reflexivity.
Defined.

(** ** The asset map *)

Lemma assetValue_url a :
  url (assetValue a) = js "https:" ++ orEmpty (file (fields a) ≫= file_url).
Proof. reflexivity. Qed.

Lemma assetValue_truthy a : url (assetValue a) <> [].
Proof. rewrite assetValue_url. discriminate. Qed.

Lemma foldl_assets_lookup assets : forall (m : gmap jsstring assetInfo) id e,
  foldl (fun m a => <[sys_id a := assetValue a]> m) m assets !! id = Some e ->
  m !! id = Some e
  \/ exists a, a ∈ assets /\ sys_id a = id /\ e = assetValue a.
Proof.
  induction assets as [| a rest IH]; intros m id e H; [by left |].
  cbn [foldl] in H. destruct (IH _ _ _ H) as [H' | (a' & In' & Id' & E')].
  - destruct (decide (sys_id a = id)) as [Heq | Hne].
    + right. exists a. rewrite <- Heq, lookup_insert_eq in H'.
      injection H' as <-. split; [apply list_elem_of_here | done].
    + left. by rewrite lookup_insert_ne in H'.
  - right. exists a'. split; [by apply list_elem_of_further | done].
Qed.

Lemma foldl_assets_present assets : forall (m : gmap jsstring assetInfo) id,
  is_Some (m !! id) \/ (exists a, a ∈ assets /\ sys_id a = id) ->
  is_Some (foldl (fun m a => <[sys_id a := assetValue a]> m) m assets !! id).
Proof.
  induction assets as [| a rest IH]; intros m id H.
  - destruct H as [H | (a & In & _)]; [done |]. by apply elem_of_nil in In.
  - cbn [foldl]. apply IH.
    destruct (decide (sys_id a = id)) as [Heq | Hne].
    + left. rewrite <- Heq, lookup_insert_eq. eauto.
    + destruct H as [H | (a' & In & Id)].
      * left. by rewrite lookup_insert_ne.
      * apply elem_of_cons in In as [-> | In]; [done |]. right. eauto.
Qed.

Lemma assetMap_lookup assets id e :
  assetMap assets !! id = Some e ->
  exists a, a ∈ assets /\ sys_id a = id /\ e = assetValue a.
Proof.
  intros H. apply foldl_assets_lookup in H as [H | H]; [| done].
  by rewrite lookup_empty in H.
Qed.

Lemma assetMap_snoc assets a :
  assetMap (assets ++ [a]) = <[sys_id a := assetValue a]> (assetMap assets).
Proof. unfold assetMap. by rewrite foldl_app. Qed.

(** With one asset per id, each asset is stored under its id. *)
Lemma assetMap_distinct assets :
  NoDup (sys_id <$> assets) ->
  forall a, a ∈ assets -> assetMap assets !! sys_id a = Some (assetValue a).
Proof.
  induction assets as [| x l IH] using rev_ind; intros D a In.
  - by apply elem_of_nil in In.
  - rewrite assetMap_snoc. rewrite fmap_app in D.
    apply NoDup_app in D as (Dl & Dx & _).
    apply elem_of_app in In as [In | In].
    + rewrite lookup_insert_ne; [by apply IH |].
      intros E. apply (Dx (sys_id a)).
      * apply list_elem_of_fmap. eauto.
      * rewrite <- E. apply list_elem_of_here.
    + apply list_elem_of_singleton in In as ->. apply lookup_insert_eq.
Qed.

(** C9, as the script has it: the value built for an asset has the url
    https: followed by the raw file url (nothing when it is missing);
    every asset of the list has an entry under its id, which is its own
    value when no two assets share an id, and every entry of the index
    is the value built for an asset of the list with that id, so that no
    stored url is empty; hence an embedded-media node whose identifier
    is not empty and is a key of the index never takes the empty render:
    it is rendered as a figure. *)
Theorem asset_url_never_empty :
  (forall a, url (assetValue a)
             = js "https:" ++ orEmpty (file (fields a) ≫= file_url))
  /\ (forall assets a, a ∈ assets -> is_Some (assetMap assets !! sys_id a))
  /\ (forall assets a, NoDup (sys_id <$> assets) -> a ∈ assets ->
        assetMap assets !! sys_id a = Some (assetValue a))
  /\ (forall assets id e, assetMap assets !! id = Some e ->
        (exists a, a ∈ assets /\ sys_id a = id /\ e = assetValue a)
        /\ url e <> [])
  /\ (forall assets n id,
        isEmbedded n -> data n ≫= target_id = Some id -> id <> [] ->
        is_Some (assetMap assets !! id) ->
        renderNode (assetMap assets) n <> []
        /\ startsWith (renderNode (assetMap assets) n) (js "<figure><img src=") = true).
Proof.
  split; [exact assetValue_url |]. split; [| split; [| split]].
  - intros assets a In. apply foldl_assets_present. right. eauto.
  - intros assets a D In. by apply assetMap_distinct.
  - intros assets id e H. pose proof (assetMap_lookup _ _ _ H) as L.
    split; [exact L |]. destruct L as (a & _ & _ & ->). apply assetValue_truthy.
  - intros assets n id E Hid Hne [e He].
    rewrite (renderNode_embedded _ n E). unfold renderAsset.
    rewrite Hid. cbn [orEmpty].
    destruct id as [| c id']; [done |]. cbn [truthy]. rewrite He.
    destruct (assetMap_lookup _ _ _ He) as (a & _ & _ & ->).
    rewrite assetValue_url. cbn [truthy negb app js]. split; [discriminate | reflexivity].
Qed.

(** The logo of the site, delivered with the entries and embedded in a
    body. *)
Lemma asset_url_never_empty_witness :
  let logo := imageAsset (js "logo1") "//images.ctfassets.net/logo.png" in
  assetMap [logo] !! js "logo1" = Some (assetValue logo)
  /\ url (assetValue logo) <> []
  /\ renderNode (assetMap [logo]) (mediaNode (js "logo1")) <> []
  /\ startsWith (renderNode (assetMap [logo]) (mediaNode (js "logo1")))
       (js "<figure><img src=") = true.
Proof.
  cbv zeta.
  destruct asset_url_never_empty as (_ & _ & D & L & R).
  split; [| split].
  - apply (D [imageAsset (js "logo1") "//images.ctfassets.net/logo.png"]
             (imageAsset (js "logo1") "//images.ctfassets.net/logo.png")).
    + repeat constructor. apply not_elem_of_nil.
    + apply list_elem_of_here.
  - apply (L [imageAsset (js "logo1") "//images.ctfassets.net/logo.png"]
             (js "logo1")). reflexivity.
  - apply (R [imageAsset (js "logo1") "//images.ctfassets.net/logo.png"]
             (mediaNode (js "logo1")) (js "logo1")).
    + left. reflexivity.
    + reflexivity.
    + discriminate.
    + vm_compute. eauto.
Defined.

(** C9 as stated fails in two places.  On the empty identifier: the
    asset is in the index, and the node that refers to it still renders
    as nothing, because the lookup is skipped for a falsy id.  On two
    assets with one id: the index keeps the url of the later one, which
    is not the url of the earlier one. *)
Lemma asset_index_counterexample :
  (let assets := [imageAsset [] "//images.ctfassets.net/logo.png"] in
   is_Some (assetMap assets !! ([] : jsstring))
   /\ isEmbedded (mediaNode [])
   /\ data (mediaNode []) ≫= target_id = Some []
   /\ renderNode (assetMap assets) (mediaNode []) = [])
  /\ (let old := imageAsset (js "logo1") "//images.ctfassets.net/old.png" in
      let new := imageAsset (js "logo1") "//images.ctfassets.net/new.png" in
      old ∈ [old; new]
      /\ url <$> assetMap [old; new] !! sys_id old
         = Some (js "https://images.ctfassets.net/new.png")
      /\ js "https:" ++ orEmpty (file (fields old) ≫= file_url)
         = js "https://images.ctfassets.net/old.png").
Proof.
  cbv zeta. split.
  - split; [by eexists |]. split; [by left |]. split; reflexivity.
  - split; [apply list_elem_of_here |]. split; reflexivity.
Qed.

(** ** [splitLead] *)

Lemma splitLoop_scanMask n nodes : forall taken outLead outRest,
  splitLoop n taken nodes outLead outRest
  = (outLead ++ pick (scanMask n taken nodes) nodes,
     outRest ++ pick (negb <$> scanMask n taken nodes) nodes).
Proof.
  induction nodes as [| x r IH]; intros taken outLead outRest.
  - simpl. by rewrite !app_nil_r.
  - cbn [splitLoop scanMask].
    destruct ((taken <? n)%Z && isParagraph x); rewrite IH; cbn [fmap list_fmap pick negb].
    + by rewrite <- app_assoc.
    + by rewrite <- app_assoc.
Qed.

Lemma paragraphsBefore_cons x r (i : nat) :
  paragraphsBefore (x :: r) (S i)
  = ((if isParagraph x then 1 else 0) + paragraphsBefore r i)%nat.
Proof.
  unfold paragraphsBefore. cbn [take List.filter]. by destruct (isParagraph x).
Qed.

(** The scan computes the mask of the specification, shifted by the
    paragraphs taken so far. *)
Lemma scanMask_spec n nodes : forall taken,
  scanMask n taken nodes
  = List.map (fun i => match nodes !! i with
                       | Some x => isParagraph x
                                   && (taken + Z.of_nat (paragraphsBefore nodes i) <? n)%Z
                       | None => false
                       end) (seq 0 (length nodes)).
Proof.
  induction nodes as [| x r IH]; intros taken; [done |].
  cbn [scanMask length seq List.map]. rewrite <- seq_shift, List.map_map.
  change ((x :: r) !! 0%nat) with (Some x).
  change (paragraphsBefore (x :: r) 0) with 0%nat.
  rewrite Z.add_0_r, andb_comm.
  destruct (isParagraph x) eqn:P, (taken <? n)%Z eqn:T; cbn [andb]; f_equal;
    rewrite IH; apply map_ext_in; intros i _;
    change ((x :: r) !! S i) with (r !! i);
    rewrite paragraphsBefore_cons, P;
    destruct (r !! i) as [y |]; try done; f_equal.
  - f_equal. lia.
  - apply Z.ltb_ge in T.
    rewrite !(proj2 (Z.ltb_ge _ _)); [done | lia | lia].
Qed.

Lemma scanMask_leadMask n nodes : scanMask n 0 nodes = leadMask n nodes.
Proof.
  rewrite scanMask_spec. unfold leadMask, inLead.
  apply map_ext. intros i. by destruct (nodes !! i).
Qed.

Lemma pick_scanMask n nodes : forall taken,
  pick (scanMask n taken nodes) nodes
  = take (Z.to_nat (n - taken)) (List.filter isParagraph nodes).
Proof.
  induction nodes as [| x r IH]; intros taken.
  { cbn [scanMask List.filter pick]. by destruct (Z.to_nat (n - taken)). }
  cbn [scanMask List.filter].
  destruct (taken <? n)%Z eqn:T, (isParagraph x) eqn:P; cbn [andb pick]; rewrite IH.
  - apply Z.ltb_lt in T.
    replace (Z.to_nat (n - taken)) with (S (Z.to_nat (n - (taken + 1)))) by lia.
    done.
  - done.
  - apply Z.ltb_ge in T.
    replace (Z.to_nat (n - taken)) with 0%nat by lia. done.
  - done.
Qed.

Lemma interleave_pick mask : forall c,
  length mask = length c ->
  reassemble mask (pick mask c) (pick (negb <$> mask) c) = c.
Proof.
  induction mask as [| b m IH]; intros [| x r] L; try done.
  injection L as L. destruct b; cbn [fmap list_fmap pick negb reassemble];
    by rewrite IH.
Qed.

Lemma length_leadMask n c : length (leadMask n c) = length c.
Proof. unfold leadMask. by rewrite length_map, length_seq. Qed.

Lemma splitLead_nodes rt n :
  topLevel (Some (lead (splitLead rt n))) = pick (leadMask n (topLevel rt)) (topLevel rt)
  /\ topLevel (Some (rest (splitLead rt n)))
     = pick (negb <$> leadMask n (topLevel rt)) (topLevel rt).
Proof.
  unfold splitLead, topLevel. rewrite splitLoop_scanMask, scanMask_leadMask. done.
Qed.

(** C4: for every document and every n at least 0, [splitLead] is a
    partition of the top-level nodes: the lead holds, in order, the first
    min(n, number of paragraphs) paragraphs, the rest holds every other
    node in the original order, and putting the lead's nodes back at
    their positions among the rest's nodes gives the original sequence. *)
Theorem splitLead_partition (rt : option node) (n : Z) :
  (0 <= n)%Z ->
  let c := topLevel rt in
  let paragraphs := List.filter isParagraph c in
  let leadNodes := topLevel (Some (lead (splitLead rt n))) in
  let restNodes := topLevel (Some (rest (splitLead rt n))) in
  leadNodes = take (Z.to_nat n) paragraphs
  /\ length leadNodes = Nat.min (Z.to_nat n) (length paragraphs)
  /\ leadNodes = pick (leadMask n c) c
  /\ restNodes = pick (negb <$> leadMask n c) c
  /\ reassemble (leadMask n c) leadNodes restNodes = c
  /\ nodeType (lead (splitLead rt n)) = js "document"
  /\ nodeType (rest (splitLead rt n)) = js "document".
Proof.
  intros Hn c paragraphs leadNodes restNodes.
  destruct (splitLead_nodes rt n) as [L R]. fold c leadNodes restNodes in L, R.
  assert (leadNodes = take (Z.to_nat n) paragraphs) as T.
  { rewrite L, <- scanMask_leadMask, pick_scanMask. by rewrite Z.sub_0_r. }
  split; [exact T |]. split; [by rewrite T, length_take |].
  split; [exact L |]. split; [exact R |]. split.
  - rewrite L, R. apply interleave_pick, length_leadMask.
  - unfold splitLead. by destruct (splitLoop _ _ _ _ _).
Qed.

(** The listing takes one paragraph of the example body as the lead. *)
Lemma splitLead_partition_witness :
  topLevel (Some (lead (splitLead (Some exampleBody) 1)))
  = [blockNode "paragraph" [textNode "first" []]]
  /\ leadMask 1 (topLevel (Some exampleBody)) = [false; true; false; false; false]
  /\ reassemble (leadMask 1 (topLevel (Some exampleBody)))
       (topLevel (Some (lead (splitLead (Some exampleBody) 1))))
       (topLevel (Some (rest (splitLead (Some exampleBody) 1))))
     = topLevel (Some exampleBody).
Proof.
  split; [reflexivity |]. split; [reflexivity |].
  apply (splitLead_partition (Some exampleBody) 1). lia.
Defined.

(** ** [richToPlain] *)

Section WalkFacts.

Variable max : Z.

Lemma accumulate_full vals buf :
  full max buf = true -> accumulate max vals buf = buf.
Proof. destruct vals; simpl; [done |]. by intros ->. Qed.

Lemma accumulate_app a : forall b buf,
  accumulate max (a ++ b) buf = accumulate max b (accumulate max a buf).
Proof.
  induction a as [| v a IH]; intros b buf; [done |].
  simpl. destruct (full max buf) eqn:F; [| apply IH].
  by rewrite accumulate_full.
Qed.

Lemma textValues_eq n :
  textValues n
  = (if streq (nodeType n) (js "text") then [orEmpty (value n)] else [])
    ++ List.concat (List.map textValues (orNil (content n))).
Proof.
  destruct n as [t v ms d c]. cbn [textValues nodeType value content].
  f_equal. destruct c as [l |]; [| done]. cbn [orNil].
  induction l as [| x r IH]; [done |]. cbn [List.map List.concat]. by rewrite IH.
Qed.

Lemma walk_eq n buf :
  walk max n buf =
  if full max buf then buf
  else
    let buf := if streq (nodeType n) (js "text")
               then buf ++ orEmpty (value n) else buf in
    match content n with
    | None => buf
    | Some c =>
        if full max buf then buf
        else fold_left (fun b x => walk max x b) c buf
    end.
Proof.
  destruct n as [t v ms d c]. cbn [walk nodeType value content].
  destruct (full max buf); [done |]. cbv zeta.
  destruct c as [l |]; [| done].
  destruct (full max _); [done |].
  generalize (if streq t (js "text") then buf ++ orEmpty v else buf).
  induction l as [| x r IH]; intros b; [done |]. cbn [fold_left]. apply IH.
Qed.

(** The walk over the tree is the accumulation over its text values. *)
Lemma walk_accumulate n : forall buf,
  walk max n buf = accumulate max (textValues n) buf.
Proof.
  induction n as [n IH] using node_nested_ind. intros buf.
  rewrite walk_eq, textValues_eq, accumulate_app.
  destruct (full max buf) eqn:F.
  { rewrite (accumulate_full _ buf F). by rewrite accumulate_full. }
  cbv zeta.
  assert (accumulate max
            (if streq (nodeType n) (js "text") then [orEmpty (value n)] else [])
            buf
          = if streq (nodeType n) (js "text") then buf ++ orEmpty (value n)
            else buf) as ->.
  { destruct (streq (nodeType n) (js "text")); simpl; [by rewrite F | done]. }
  generalize (if streq (nodeType n) (js "text") then buf ++ orEmpty (value n)
              else buf). intros b.
  destruct (content n) as [c |]; [| done]. cbn [orNil] in *.
  destruct (full max b) eqn:Fb; [by rewrite accumulate_full |].
  clear F Fb. revert b.
  induction IH as [| x r Hx Hr IHr]; intros b; [done |].
  cbn [fold_left List.map List.concat].
  by rewrite accumulate_app, <- Hx, IHr.
Qed.

Lemma walkRoot_accumulate rt :
  walkRoot max rt = accumulate max (textValuesOf rt) [].
Proof. destruct rt as [n |]; [apply walk_accumulate | done]. Qed.

(** Where the accumulation stops: after the first [k] values, [k] being
    the least number of values that fill the buffer, or all of them. *)
Lemma accumulate_cut vals : forall buf,
  exists k : nat,
    (k <= length vals)%nat
    /\ accumulate max vals buf = buf ++ List.concat (take k vals)
    /\ (forall j : nat, (j < k)%nat ->
          (Z.of_nat (length (buf ++ List.concat (take j vals))) < max)%Z)
    /\ ((k < length vals)%nat ->
          (max <= Z.of_nat (length (buf ++ List.concat (take k vals))))%Z).
Proof.
  induction vals as [| v r IH]; intros buf.
  - exists 0%nat. simpl. rewrite app_nil_r. repeat split; [lia | lia | lia].
  - simpl. destruct (full max buf) eqn:F.
    + exists 0%nat. simpl. rewrite app_nil_r.
      unfold full in F. apply Z.leb_le in F. repeat split; [lia | lia | lia].
    + destruct (IH (buf ++ v)) as (k & Hk & E & Lt & Ge).
      exists (S k). cbn [take List.concat]. rewrite app_assoc.
      split; [lia |]. split; [exact E |]. split.
      * intros [| j] Hj.
        -- simpl. rewrite app_nil_r. unfold full in F. apply Z.leb_gt in F. lia.
        -- cbn [take List.concat]. rewrite app_assoc. apply Lt. lia.
      * intros Hlt. apply Ge. lia.
Qed.

End WalkFacts.

(** *** Strings that [trim] leaves as they are *)

Lemma length_trimStart s : (length (trimStart s) <= length s)%nat.
Proof.
  induction s as [| c r IH]; simpl; [done |].
  destruct (isWhiteSpace c); simpl; lia.
Qed.

Lemma length_trimEnd s : (length (trimEnd s) <= length s)%nat.
Proof.
  induction s as [| c r IH]; simpl; [done |].
  destruct (trimEnd r); [destruct (isWhiteSpace c) |]; simpl in *; lia.
Qed.

Lemma trimStart_fixed_iff s :
  trimStart s = s <-> (forall c, head s = Some c -> isWhiteSpace c = false).
Proof.
  destruct s as [| c r]; simpl; [by split |].
  destruct (isWhiteSpace c) eqn:W; split.
  - intros E. pose proof (length_trimStart r) as L. rewrite E in L. simpl in L. lia.
  - intros H. specialize (H c eq_refl). congruence.
  - intros _ c' [= <-]. done.
  - done.
Qed.

Lemma trimEnd_last s c : last (trimEnd s) = Some c -> isWhiteSpace c = false.
Proof.
  induction s as [| d r IH]; simpl; [done |].
  destruct (trimEnd r) as [| e t] eqn:E.
  - destruct (isWhiteSpace d) eqn:W; simpl; [done |]. by intros [= <-].
  - rewrite last_cons_cons. exact IH.
Qed.

Lemma trimEnd_fixed_iff s :
  trimEnd s = s <-> (forall c, last s = Some c -> isWhiteSpace c = false).
Proof.
  split.
  - intros E c H. rewrite <- E in H. by eapply trimEnd_last.
  - induction s as [| d r IH]; [done |]. intros H. simpl.
    destruct r as [| e t].
    + simpl. by rewrite (H d eq_refl).
    + rewrite IH; [done |]. intros c Hc. apply H. by rewrite last_cons_cons.
Qed.

Lemma trimmed_iff s :
  trimmed s <->
  (forall c, head s = Some c -> isWhiteSpace c = false)
  /\ (forall c, last s = Some c -> isWhiteSpace c = false).
Proof.
  unfold trimmed, trim. rewrite <- trimStart_fixed_iff, <- trimEnd_fixed_iff. split.
  - intros E. assert (trimStart s = s) as S.
    { pose proof (length_trimEnd (trimStart s)) as L1. rewrite E in L1.
      destruct s as [| c r]; [done |]. simpl in *.
      destruct (isWhiteSpace c); [| done].
      pose proof (length_trimStart r). lia. }
    split; [exact S |]. by rewrite S in E.
  - intros [S E]. by rewrite S.
Qed.

Lemma trimmed_app a b : trimmed a -> trimmed b -> trimmed (a ++ b).
Proof.
  rewrite !trimmed_iff. intros [Ha La] [Hb Lb]. split.
  - destruct a as [| c r]; [exact Hb | exact Ha].
  - intros c. rewrite last_app. destruct (last b) as [y |] eqn:E.
    + intros [= <-]. by apply Lb.
    + apply La.
Qed.

Lemma trimmed_concat l : Forall trimmed l -> trimmed (List.concat l).
Proof.
  induction 1 as [| v r Hv Hr IH]; [done |]. by apply trimmed_app.
Qed.

Lemma richToPlain_accumulate rt max :
  richToPlain rt max
  = esc (slice0 (trim (accumulate max (textValuesOf rt) [])) max).
Proof. unfold richToPlain. by rewrite walkRoot_accumulate. Qed.

(** C2, as the script has it: the text is accumulated value by value,
    depth first, and a value is added only while the accumulation is
    shorter than maxLen; the result is the HTML-escaping of the first
    maxLen characters of the accumulation with the white space at its
    two ends removed.  When no text value begins or ends with white
    space, this is the HTML-escaping of the first maxLen characters of
    the concatenation of all the text values.  For the text nodes Hello
    (with a space after it) and <world> and maxLen 8 the result is
    Hello &lt;w. *)
Theorem richToPlain_trims_then_cuts (rt : option node) (max : Z) :
  let vals := textValuesOf rt in
  (exists k : nat,
      (k <= length vals)%nat
      /\ (forall j : nat, (j < k)%nat ->
            (Z.of_nat (length (List.concat (take j vals))) < max)%Z)
      /\ ((k < length vals)%nat ->
            (max <= Z.of_nat (length (List.concat (take k vals))))%Z)
      /\ richToPlain rt max
         = esc (slice0 (trim (List.concat (take k vals))) max))
  /\ ((0 <= max)%Z -> Forall trimmed vals ->
      richToPlain rt max = esc (take (Z.to_nat max) (List.concat vals)))
  /\ richToPlain (Some helloBody) 8 = js "Hello &lt;w".
Proof.
  intros vals.
  destruct (accumulate_cut max vals []) as (k & Hk & E & Lt & Ge).
  cbn [app] in *.
  split; [| split].
  - exists k. repeat split; try done.
    by rewrite richToPlain_accumulate, <- E.
  - intros Hmax T.
    rewrite richToPlain_accumulate. fold vals. rewrite E.
    assert (trimmed (List.concat (take k vals))) as ->.
    { apply trimmed_concat, Forall_take, T. }
    unfold slice0. rewrite (proj2 (Z.ltb_ge max 0) Hmax). f_equal.
    destruct (decide (k < length vals)%nat) as [Hlt | Hge].
    + rewrite <- (take_drop k vals) at 2. rewrite concat_app.
      rewrite take_app_le; [done |]. specialize (Ge Hlt). lia.
    + by rewrite (take_ge vals k) by lia.
  - reflexivity.
Qed.

(** Text values without white space at their ends, cut at 8. *)
Lemma richToPlain_trims_then_cuts_witness :
  richToPlain (Some (document [textNode "News" []; textNode "<of>" [];
                               textNode "today" []])) 8
  = js "News&lt;of&gt;".
Proof.
  rewrite (proj1 (proj2 (richToPlain_trims_then_cuts
             (Some (document [textNode "News" []; textNode "<of>" [];
                              textNode "today" []])) 8))).
  - reflexivity.
  - lia.
  - repeat constructor.
Defined.

(** C2 as stated fails on text that begins with white space: the first
    two characters of the concatenation are the two spaces, and the
    script, which trims before it cuts, returns ab. *)
Lemma richToPlain_indented_counterexample :
  richToPlain (Some indentedBody) 2 = js "ab"
  /\ esc (take 2 (List.concat (textValuesOf (Some indentedBody)))) = js "  "
  /\ richToPlain (Some indentedBody) 2
     <> esc (take (Z.to_nat 2) (List.concat (textValuesOf (Some indentedBody)))).
Proof.
  split; [reflexivity |]. split; [reflexivity |]. discriminate.
Qed.

(** ** The card splice *)

Lemma startsWith_app pat r : startsWith (pat ++ r) pat = true.
Proof.
  induction pat as [| p pat IH]; [by destruct r |].
  simpl. by rewrite N.eqb_refl, IH.
Qed.

Lemma startsWith_split s : forall pat,
  startsWith s pat = true -> s = pat ++ drop (length pat) s.
Proof.
  induction s as [| c s IH]; intros [| p pat] H; try done.
  simpl in H. apply andb_true_iff in H as [E H]. apply N.eqb_eq in E. subst p.
  simpl. f_equal. by apply IH.
Qed.

Lemma splitFirst_eq pat s :
  splitFirst pat s =
  if startsWith s pat then Some ([], drop (length pat) s)
  else match s with
       | [] => None
       | c :: r =>
           match splitFirst pat r with
           | Some (pre, post) => Some (c :: pre, post)
           | None => None
           end
       end.
Proof. by destruct s. Qed.

(** What [splitFirst] returns is an occurrence of the pattern. *)
Lemma splitFirst_sound pat s : forall pre post,
  splitFirst pat s = Some (pre, post) -> s = pre ++ pat ++ post.
Proof.
  induction s as [| c r IH]; intros pre post; rewrite splitFirst_eq;
    destruct (startsWith _ pat) eqn:S.
  - intros [= <- <-]. by apply startsWith_split.
  - done.
  - intros [= <- <-]. by apply startsWith_split.
  - destruct (splitFirst pat r) as [[pre' post'] |]; [| done].
    intros [= <- <-]. simpl. f_equal. by apply IH.
Qed.

(** It finds the pattern wherever there is one, and no later than any
    other occurrence. *)
Lemma splitFirst_complete pat a : forall b,
  exists pre post,
    splitFirst pat (a ++ pat ++ b) = Some (pre, post)
    /\ (length pre <= length a)%nat.
Proof.
  induction a as [| c a IH]; intros b.
  - exists [], (drop (length pat) (pat ++ b)). split; [| done].
    rewrite splitFirst_eq. cbn [app]. by rewrite startsWith_app.
  - rewrite splitFirst_eq. destruct (startsWith _ pat).
    + eexists _, _. split; [done |]. simpl. lia.
    + cbn [app]. destruct (IH b) as (pre & post & -> & L).
      eexists _, _. split; [done |]. simpl. lia.
Qed.

Lemma matchMarkers_sound tpl pre mid post :
  matchMarkers tpl = Some (pre, mid, post) ->
  tpl = pre ++ START_MARK ++ mid ++ END_MARK ++ post.
Proof.
  unfold matchMarkers.
  destruct (splitFirst START_MARK tpl) as [[p afterStart] |] eqn:S; [| done].
  destruct (splitFirst END_MARK afterStart) as [[m q] |] eqn:E; [| done].
  intros [= <- <- <-].
  apply splitFirst_sound in S, E. by rewrite S, E.
Qed.

Lemma matchMarkers_complete tpl :
  hasMarkerPair tpl -> is_Some (matchMarkers tpl).
Proof.
  intros (a & b & c & ->). unfold matchMarkers.
  destruct (splitFirst_complete START_MARK a (b ++ END_MARK ++ c))
    as (pre & afterStart & S & L).
  rewrite S. pose proof (splitFirst_sound _ _ _ _ S) as D.
  assert (exists x, afterStart = x ++ END_MARK ++ c) as [x ->].
  { exists (drop (length pre + length START_MARK) (a ++ START_MARK) ++ b).
    apply (f_equal (drop (length pre + length START_MARK))) in D.
    rewrite (app_assoc pre) in D.
    rewrite (drop_app_length' (pre ++ START_MARK) afterStart) in D
      by (rewrite length_app; lia).
    rewrite <- D, (app_assoc a).
    rewrite (drop_app_le (a ++ START_MARK)) by (rewrite length_app; lia).
    by rewrite <- app_assoc. }
  destruct (splitFirst_complete END_MARK x c) as (mid & post & -> & _). eauto.
Qed.

Lemma matchMarkers_None_iff tpl :
  matchMarkers tpl = None <-> ~ hasMarkerPair tpl.
Proof.
  split.
  - intros N H. apply matchMarkers_complete in H as [? H]. congruence.
  - intros H. destruct (matchMarkers tpl) as [[[pre mid] post] |] eqn:M; [| done].
    destruct H. exists pre, mid, post. by apply matchMarkers_sound.
Qed.

(** A stretch of the replacement template without a dollar sign is
    copied as it is. *)
Lemma getSubstitution_plain captures matched pre post plain : forall template,
  Forall (fun c => c <> dollar) plain ->
  getSubstitution captures matched pre post (plain ++ template)
  = plain ++ getSubstitution captures matched pre post template.
Proof.
  intros template. induction 1 as [| c r Hc Hr IH]; [done |].
  cbn [app getSubstitution].
  destruct (N.eqb_spec c dollar) as [-> | _]; [done |].
  cbn [negb]. by rewrite IH.
Qed.

(** With the markers there and no dollar sign in the cards, the cards
    take the place of what was between the markers. *)
Lemma newsPage_splices tpl cards pre mid post :
  matchMarkers tpl = Some (pre, mid, post) ->
  Forall (fun c => c <> dollar) cards ->
  newsPage tpl cards
  = pre ++ START_MARK ++ [0x0A] ++ cards ++ [0x0A] ++ END_MARK ++ post.
Proof.
  intros M Hc. unfold newsPage. rewrite M. f_equal.
  change (js "$1" ++ [0x0A] ++ cards ++ [0x0A] ++ js "$3")
    with ([dollar; 0x31; 0x0A] ++ cards ++ [0x0A; dollar; 0x33]).
  set (go := getSubstitution [START_MARK; mid; END_MARK]
               (START_MARK ++ mid ++ END_MARK) pre post).
  assert (forall t, go ([dollar; 0x31; 0x0A] ++ t) = START_MARK ++ 0x0A :: go t) as E1.
  { intros t. reflexivity. }
  assert (go [0x0A; dollar; 0x33] = 0x0A :: END_MARK) as E2.
  { reflexivity. }
  rewrite E1. unfold go at 1. rewrite (getSubstitution_plain _ _ _ _ cards _ Hc).
  fold go. rewrite E2.
  change (10 :: cards ++ 10 :: END_MARK) with ([10] ++ cards ++ [10] ++ END_MARK).
  by rewrite <- !app_assoc.
Qed.

(** C1, as the script has it: when the template has no start marker
    followed by an end marker, the splice raises no error and hands the
    template back as it is. *)
Theorem newsPage_without_markers (tpl cards : jsstring) :
  ~ hasMarkerPair tpl -> newsPage tpl cards = tpl.
Proof.
  intros H. apply matchMarkers_None_iff in H. unfold newsPage. by rewrite H.
Qed.

Lemma bareTemplate_no_markers : ~ hasMarkerPair bareTemplate.
Proof. by apply matchMarkers_None_iff. Qed.

(** The splice on a page that lost its markers. *)
Lemma newsPage_without_markers_witness :
  newsPage bareTemplate exampleCard = bareTemplate.
Proof.
  apply (newsPage_without_markers bareTemplate exampleCard).
  apply matchMarkers_None_iff. reflexivity.
Defined.

(** C1 as stated fails: the page without markers comes back unmodified,
    and nothing is raised. *)
Lemma newsPage_silent_counterexample :
  ~ hasMarkerPair bareTemplate
  /\ newsPage bareTemplate exampleCard = bareTemplate.
Proof. split; [exact bareTemplate_no_markers | reflexivity]. Qed.

(** The same splice on a page that has them. *)
Example newsPage_marked :
  newsPage markedTemplate exampleCard
  = js "<main><!-- START:NEWS-LIST -->" ++ [0x0A] ++ exampleCard ++ [0x0A]
    ++ js "<!-- END:NEWS-LIST --></main>".
Proof. reflexivity. Qed.

(** * More properties of the script *)

(** ** The environment candidates *)

Lemma envCandidates_facts (envVar : option jsstring) :
  let first := if truthy (orEmpty envVar) then orEmpty envVar else js "master" in
  head (envCandidates envVar) = Some first
  /\ NoDup (envCandidates envVar)
  /\ (forall e, e ∈ envCandidates envVar
                <-> e = first \/ e = js "master" \/ e = js "main").
Proof.
  intros first. unfold envCandidates. fold first.
  generalize first. clear. intros e. cbn [dedupe].
  rewrite bool_decide_eq_false_2 by apply not_elem_of_nil.
  assert (forall a b : jsstring, a <> b -> a ∉ [b]) as N1.
  { intros a b H In. by apply list_elem_of_singleton in In. }
  assert (forall a b c : jsstring, a <> b -> a <> c -> a ∉ [b; c]) as N2.
  { intros a b c H1 H2 In. apply elem_of_cons in In as [-> | In]; [done |].
    by apply (N1 a c). }
  assert (js "master" <> js "main") as Hmm by done.
  split; [done |].
  destruct (decide (e = js "master")) as [-> | Hm];
    [| destruct (decide (e = js "main")) as [-> | Hn]].
  - rewrite (bool_decide_eq_true_2 (js "master" ∈ [js "master"]))
      by apply list_elem_of_here.
    rewrite (bool_decide_eq_false_2 (js "main" ∈ [js "master"]))
      by (apply N1; congruence).
    split.
    + repeat constructor; [by apply N1 | apply not_elem_of_nil].
    + intros x. rewrite !elem_of_cons, elem_of_nil. tauto.
  - rewrite (bool_decide_eq_false_2 (js "master" ∈ [js "main"])) by by apply N1.
    rewrite (bool_decide_eq_true_2 (js "main" ∈ [js "master"; js "main"]))
      by (apply list_elem_of_further, list_elem_of_here).
    split.
    + repeat constructor; [apply N1; congruence | apply not_elem_of_nil].
    + intros x. rewrite !elem_of_cons, elem_of_nil. tauto.
  - rewrite (bool_decide_eq_false_2 (js "master" ∈ [e])) by (apply N1; congruence).
    rewrite (bool_decide_eq_false_2 (js "main" ∈ [js "master"; e]))
      by (apply N2; congruence).
    split.
    + repeat constructor;
        [by apply N2 | by apply N1 | apply not_elem_of_nil].
    + intros x. rewrite !elem_of_cons, elem_of_nil. tauto.
Qed.

(** X1: the candidates begin with the configured environment (master
    when the variable is unset or empty), hold master and main, and name
    no environment twice, so that no environment is asked twice. *)
Theorem envCandidates_shape (envVar : option jsstring) :
  let first := if truthy (orEmpty envVar) then orEmpty envVar else js "master" in
  head (envCandidates envVar) = Some first
  /\ NoDup (envCandidates envVar)
  /\ (forall e, e ∈ envCandidates envVar
                <-> e = first \/ e = js "master" \/ e = js "main").
Proof. exact (envCandidates_facts envVar). Qed.

(** ** The fetch loop: running out of candidates *)

Section FetchOutcomes.

Context {payload World : Type}.
Variable truthyData : payload -> bool.
Variable fetch : World -> jsstring -> jsstring -> World * option (response payload).
Variables SPACE TOKEN : jsstring.

Local Abbreviation loop := (envLoop fetch SPACE TOKEN).

(** An answer that makes the loop go on to the next candidate. *)
Lemma verdict_None envId (res : option (response payload)) :
  verdict envId res = None
  <-> exists r, res = Some r /\ ok r = false /\ ~ isAuthFailure r.
Proof.
  unfold verdict. split.
  - destruct res as [r |]; [| done].
    destruct (ok r) eqn:O; [done |].
    destruct ((status r =? 401) || (status r =? 403))%Z eqn:A; [done |].
    intros _. exists r. repeat split; [done |].
    intros H. apply (auth_test r) in H. congruence.
  - intros (r & -> & O & A). rewrite O.
    destruct ((status r =? 401) || (status r =? 403))%Z eqn:T; [| done].
    destruct A. by apply (auth_test r).
Qed.

(** The loop falls through exactly when every candidate was asked and
    every answer told it to go on. *)
Lemma envLoop_exhausted envs : forall w w' log out,
  loop w envs = (w', log, out) ->
  (out = Done None
   <-> log.*1 = envs
       /\ forall (i : nat) envId res, log !! i = Some (envId, res) ->
                                       verdict envId res = None).
Proof.
  induction envs as [| e rest IH]; intros w w' log out H.
  - simpl in H. injection H as <- <- <-. split; [| done].
    intros _. split; [done |]. by intros [].
  - rewrite (envLoop_cons fetch SPACE TOKEN) in H.
    destruct (fetch w _ _) as [w1 res].
    destruct (verdict e res) as [stop |] eqn:V.
    + injection H as <- <- <-. split.
      * intros ->. exfalso. unfold verdict in V.
        destruct res as [r |]; [| done].
        destruct (ok r); [by destruct (body r) |].
        by destruct ((status r =? 401) || (status r =? 403))%Z.
      * intros [_ A]. specialize (A 0%nat e res eq_refl). congruence.
    + destruct (loop w1 rest) as [[w2 log'] out'] eqn:L.
      injection H as <- <- <-.
      rewrite (IH _ _ _ _ L). rewrite fmap_cons. cbn [fst]. split.
      * intros [P A]. split; [by rewrite P |].
        intros [| i] envId res' Hi; simpl in Hi.
        -- by injection Hi as <- <-.
        -- by eapply A.
      * intros [P A]. injection P as P. split; [done |].
        intros i envId res' Hi. by apply (A (S i)).
Qed.

(** The loop itself throws the other errors only. *)
Lemma envLoop_own_errors envs : forall w w' log checked,
  loop w envs <> (w', log, Threw (CouldNotFetch checked)).
Proof.
  induction envs as [| x rest IH]; intros w w' log checked L; [done |].
  rewrite (envLoop_cons fetch SPACE TOKEN) in L.
  destruct (fetch w _ _) as [w1 res].
  destruct (verdict x res) as [stop |] eqn:V.
  - injection L as _ _ ->. unfold verdict in V.
    destruct res as [r |]; [| done].
    destruct (ok r); [by destruct (body r) |].
    by destruct ((status r =? 401) || (status r =? 403))%Z.
  - destruct (loop w1 rest) as [[w2 log'] out''] eqn:L'.
    injection L as _ _ ->. by eapply IH.
Qed.

(** The loop breaks with data only on a successful answer, the last
    of the log. *)
Lemma envLoop_break envs : forall w w' log d envId,
  loop w envs = (w', log, Done (Some (d, envId))) ->
  exists r, last log = Some (envId, Some r)
            /\ ok r = true /\ body r = Some d
            /\ envs !! (length log - 1)%nat = Some envId.
Proof.
  induction envs as [| x rest IH]; intros w w' log d envId L; [done |].
  rewrite (envLoop_cons fetch SPACE TOKEN) in L.
  destruct (fetch w _ _) as [w1 res].
  destruct (verdict x res) as [stop |] eqn:V.
  - injection L as _ <- ->. unfold verdict in V.
    destruct res as [r |]; [| done].
    destruct (ok r) eqn:O.
    + destruct (body r) as [d' |] eqn:B; [| done].
      injection V as <- <-. exists r. by repeat split.
    + by destruct ((status r =? 401) || (status r =? 403))%Z.
  - destruct (loop w1 rest) as [[w2 log'] out''] eqn:L'.
    injection L as _ <- ->.
    destruct (IH _ _ _ _ _ L') as (r & La & O & B & I).
    exists r. destruct log' as [| y t]; [done |].
    rewrite last_cons_cons. repeat split; try done.
    replace (length ((x, res) :: y :: t) - 1)%nat
      with (S (length (y :: t) - 1)) by (simpl; lia).
    exact I.
Qed.

(** An answer on which the loop breaks with data is the last one. *)
Lemma envLoop_last_ok envs w w' (log : list (exchange payload)) out envId r d :
  loop w envs = (w', log, out) ->
  last log = Some (envId, Some r) -> ok r = true -> body r = Some d ->
  out = Done (Some (d, envId)).
Proof.
  intros L La O B.
  destruct (envLoop_inv fetch SPACE TOKEN _ _ _ _ _ L) as [_ Q].
  rewrite last_lookup in La.
  destruct (Q _ _ _ La (Done (Some (d, envId)))) as [_ ->]; [| done].
  unfold verdict. by rewrite O, B.
Qed.

(** X2: the build fails with the could-not-fetch error in two cases
    and no other: every candidate was asked, in order, and each
    answered with a status that is neither a success nor 401 or 403;
    or the last answer was a success whose body parsed to a falsy
    value.  The error names all the candidates. *)
Theorem fetch_exhaustion (w : World) (envs : list jsstring)
    (log : list (exchange payload)) out :
  fetchEntries truthyData fetch SPACE TOKEN w envs = (log, out) ->
  ((exists checked, out = Threw (CouldNotFetch checked))
   <-> (log.*1 = envs
        /\ forall (i : nat) envId res, log !! i = Some (envId, res) ->
             exists r, res = Some r /\ ok r = false /\ ~ isAuthFailure r)
       \/ (exists envId r d,
             last log = Some (envId, Some r)
             /\ ok r = true /\ body r = Some d /\ truthyData d = false))
  /\ (forall checked, out = Threw (CouldNotFetch checked) -> checked = envs).
Proof.
  intros F.
  destruct (fetchEntries_loop truthyData fetch SPACE TOKEN _ _ _ _ F)
    as (w' & out' & L & ->).
  pose proof (envLoop_exhausted _ _ _ _ _ L) as E.
  assert ((log.*1 = envs
           /\ forall (i : nat) envId res, log !! i = Some (envId, res) ->
                exists r, res = Some r /\ ok r = false /\ ~ isAuthFailure r)
          <-> out' = Done None) as E'.
  { rewrite E. split; intros [P A]; (split; [done |]);
      intros i envId res Hi.
    - apply (proj2 (verdict_None envId res)). by eapply A.
    - apply (proj1 (verdict_None envId res)). by eapply A. }
  split.
  - rewrite E'. split.
    + intros [c H]. destruct out' as [[[d e] |] | e].
      * right. destruct (truthyData d) eqn:T; [done |].
        destruct (envLoop_break _ _ _ _ _ _ L) as (r & La & O & B & _).
        by exists e, r, d.
      * by left.
      * exfalso. assert (e = CouldNotFetch c) as -> by congruence.
        by eapply envLoop_own_errors.
    + intros [-> | (envId & r & d & La & O & B & T)]; [eauto |].
      rewrite (envLoop_last_ok _ _ _ _ _ _ _ _ L La O B), T. eauto.
  - intros c H. destruct out' as [[[d e] |] | e].
    + destruct (truthyData d); [done | by injection H].
    + by injection H.
    + exfalso. assert (e = CouldNotFetch c) as -> by congruence.
      by eapply envLoop_own_errors.
Qed.

(** X3: when the fetch gives data, the data is the parsed body of the
    last answer in the log, that answer was a success, and the
    environment used is the candidate it came from. *)
Theorem fetch_result_origin (w : World) (envs : list jsstring)
    (log : list (exchange payload)) d envId :
  fetchEntries truthyData fetch SPACE TOKEN w envs = (log, Done (d, envId)) ->
  exists r, last log = Some (envId, Some r)
            /\ ok r = true /\ body r = Some d
            /\ envs !! (length log - 1)%nat = Some envId.
Proof.
  intros F.
  destruct (fetchEntries_loop truthyData fetch SPACE TOKEN _ _ _ _ F)
    as (w' & out' & L & E).
  assert (out' = Done (Some (d, envId))) as ->.
  { destruct out' as [[[d' e'] |] | e]; [| done | done].
    destruct (truthyData d'); [by injection E as -> -> | done]. }
  by eapply envLoop_break.
Qed.

End FetchOutcomes.

(** Three candidates on a network that knows none of them. *)
Lemma fetch_exhaustion_witness :
  let gone := Some {| status := 404; body := @None jsstring |} in
  let log := [(js "staging", gone); (js "master", gone); (js "main", gone)] in
  fetchEntries truthy netGone (js "sp4ce") (js "t0ken") 0%nat stagingMasterMain
  = (log, Threw (CouldNotFetch stagingMasterMain))
  /\ log.*1 = stagingMasterMain.
Proof.
  cbv zeta.
  assert (fetchEntries truthy netGone (js "sp4ce") (js "t0ken") 0%nat
            stagingMasterMain
          = ([(js "staging", Some {| status := 404; body := None |});
              (js "master", Some {| status := 404; body := None |});
              (js "main", Some {| status := 404; body := None |})],
             Threw (CouldNotFetch stagingMasterMain))) as F by reflexivity.
  split; [exact F |].
  destruct (proj1 (proj1 (fetch_exhaustion truthy netGone (js "sp4ce") (js "t0ken")
                            0%nat stagingMasterMain _ _ F)))
    as [[P _] | (e & r & d & La & O & _)].
  - eexists. reflexivity.
  - exact P.
  - simpl in La. injection La as <- <-. discriminate O.
Defined.

(** The data of the network on which master answers. *)
Lemma fetch_result_origin_witness :
  let log := [(js "staging", Some {| status := 404; body := None |});
              (js "master",
               Some {| status := 200; body := Some (js "entries of master") |})] in
  exists r : response jsstring,
    last log = Some (js "master", Some r)
    /\ ok r = true /\ body r = Some (js "entries of master")
    /\ stagingMasterMain !! (length log - 1)%nat = Some (js "master").
Proof.
  cbv zeta.
  apply (fetch_result_origin truthy net404 (js "sp4ce") (js "t0ken") 0%nat
           stagingMasterMain
           [(js "staging", Some {| status := 404; body := None |});
            (js "master",
             Some {| status := 200; body := Some (js "entries of master") |})]
           (js "entries of master") (js "master")).
  reflexivity.
Defined.

(** ** [esc] *)

Lemma esc_cons c s : esc (c :: s) = escUnit c ++ esc s.
Proof. reflexivity. Qed.

Lemma escUnit_length c : (1 <= length (escUnit c) <= 6)%nat.
Proof.
  unfold escUnit.
  repeat match goal with
         | |- context [c =? ?k] => destruct (c =? k)
         end; simpl; lia.
Qed.

Lemma esc_length s : (length s <= length (esc s) <= 6 * length s)%nat.
Proof.
  induction s as [| c r IH]; [simpl; lia |].
  rewrite esc_cons, length_app. pose proof (escUnit_length c). simpl. lia.
Qed.

(** The escape of one character tells which character it was, whatever
    follows. *)
Lemma escUnit_prefix_free c1 c2 x y :
  escUnit c1 ++ x = escUnit c2 ++ y -> c1 = c2 /\ x = y.
Proof.
  unfold escUnit.
  repeat match goal with
         | |- context [c1 =? ?k] => destruct (N.eqb_spec c1 k); [subst c1 |]
         end;
  repeat match goal with
         | |- context [c2 =? ?k] => destruct (N.eqb_spec c2 k); [subst c2 |]
         end;
  cbn; intros H; by simplify_eq.
Qed.

(** X4: escaping loses nothing: two texts have the same escape only when
    they are the same text. *)
Theorem esc_injective (a b : jsstring) : esc a = esc b <-> a = b.
Proof.
  split; [| by intros ->].
  revert b. induction a as [| c a IH]; intros [| d b] H; try done.
  - exfalso. rewrite esc_cons in H. pose proof (escUnit_length d).
    apply (f_equal length) in H. rewrite length_app in H. simpl in H. lia.
  - exfalso. rewrite esc_cons in H. pose proof (escUnit_length c).
    apply (f_equal length) in H. rewrite length_app in H. simpl in H. lia.
  - rewrite !esc_cons in H. apply escUnit_prefix_free in H as [-> H].
    f_equal. by apply IH.
Qed.

(** X5: escaping works character by character: the escape of two texts
    put together is their two escapes put together, and a text without
    any of the five characters is its own escape; the escaped text holds
    no less-than sign, no greater-than sign and no quote of either kind,
    whatever the input; it is at least as long as the input and at most
    six times as long. *)
Theorem esc_inert (s : jsstring) :
  Forall inert (esc s)
  /\ (length s <= length (esc s) <= 6 * length s)%nat
  /\ (forall t, esc (s ++ t) = esc s ++ esc t)
  /\ (Forall (fun c => ~ htmlSignificant c) s -> esc s = s).
Proof.
  split; [apply esc_safe |]. split; [apply esc_length |].
  split; [intros t; apply esc_app | apply esc_plain].
Qed.

(** A slug needs no escaping. *)
Lemma esc_inert_witness : esc (js "hello-world") = js "hello-world".
Proof.
  apply (proj2 (proj2 (proj2 (esc_inert (js "hello-world"))))).
  match goal with
  | |- Forall _ (js ?s) =>
      let v := eval vm_compute in (js s) in change (js s) with v
  end.
  repeat (constructor; [unfold htmlSignificant; lia |]). constructor.
Defined.

(** ** [richToPlain]: what can be said of every result *)

Lemma length_slice0 s (n : Z) :
  (0 <= n)%Z -> (Z.of_nat (length (slice0 s n)) <= n)%Z.
Proof.
  intros H. unfold slice0. rewrite (proj2 (Z.ltb_ge n 0) H).
  rewrite length_take. lia.
Qed.

(** X6: the result of [richToPlain] holds no less-than sign, no
    greater-than sign and no quote, so that it can stand in an attribute
    and cannot close a CDATA section; for a limit of at least 0 it is the
    escape of at most that many characters, hence at most six times as
    long; it is empty for a limit of 0 or less and for a missing body. *)
Theorem richToPlain_inert_and_bounded (rt : option node) (max : Z) :
  Forall inert (richToPlain rt max)
  /\ ((0 <= max)%Z ->
      exists raw, richToPlain rt max = esc raw
                  /\ (Z.of_nat (length raw) <= max)%Z
                  /\ (Z.of_nat (length (richToPlain rt max)) <= 6 * max)%Z)
  /\ ((max <= 0)%Z -> richToPlain rt max = [])
  /\ richToPlain None max = [].
Proof.
  split; [apply esc_safe |]. split; [| split].
  - intros H. exists (slice0 (trim (walkRoot max rt)) max).
    split; [done |]. pose proof (length_slice0 (trim (walkRoot max rt)) max H) as L.
    split; [exact L |]. unfold richToPlain.
    pose proof (esc_length (slice0 (trim (walkRoot max rt)) max)). lia.
  - intros H. unfold richToPlain.
    assert (walkRoot max rt = []) as ->.
    { destruct rt as [n |]; [| done]. cbn [walkRoot]. rewrite walk_eq.
      change (full max []) with (max <=? 0)%Z.
      by rewrite (proj2 (Z.leb_le max 0) H). }
    cbn [trim trimStart trimEnd]. unfold slice0.
    destruct (max <? 0)%Z; by rewrite take_nil.
  - unfold richToPlain. cbn [walkRoot trim trimStart trimEnd].
    unfold slice0. destruct (max <? 0)%Z; by rewrite take_nil.
Qed.

(** The description of the example body, cut at 8. *)
Lemma richToPlain_inert_and_bounded_witness :
  exists raw, richToPlain (Some helloBody) 8 = esc raw
              /\ (Z.of_nat (length raw) <= 8)%Z
              /\ (Z.of_nat (length (richToPlain (Some helloBody) 8)) <= 6 * 8)%Z.
Proof.
  apply (proj1 (proj2 (richToPlain_inert_and_bounded (Some helloBody) 8))). lia.
Defined.

(** ** [slugify] as the runs of letters and digits *)

Lemma stripTrailing_app a y : y <> [] -> stripTrailing (a ++ y) = a ++ stripTrailing y.
Proof.
  intros Hy. induction a as [| x a IH]; [done |].
  cbn [app]. destruct (a ++ y) as [| z t] eqn:E.
  - by destruct a, y.
  - rewrite <- IH. done.
Qed.

Lemma stripTrailing_alnum_end a c :
  isLowerAlnum c = true -> stripTrailing (a ++ [c]) = a ++ [c].
Proof.
  intros H. rewrite stripTrailing_app by done. simpl.
  destruct (N.eqb_spec c hyphen) as [-> | _]; [done | done].
Qed.

Lemma alnumRuns_nonempty s : forall cur, cur <> [] -> alnumRuns cur s <> [].
Proof.
  induction s as [| c r IH]; intros cur H; simpl.
  - by destruct cur.
  - destruct (isLowerAlnum c); [apply IH; by destruct cur |].
    by destruct cur.
Qed.

Lemma joinWith_cons sep x l :
  l <> [] -> joinWith sep (x :: l) = x ++ sep ++ joinWith sep l.
Proof. by destruct l. Qed.

(** The scan inside a run of letters and digits, and the scan after the
    hyphen that follows one. *)
Lemma replaceRuns_runs s :
  (forall cur, cur <> [] ->
     (exists d, last cur = Some d /\ isLowerAlnum d = true) ->
     stripTrailing (cur ++ replaceRuns false s)
     = joinWith [hyphen] (alnumRuns cur s))
  /\ (forall cur, cur <> [] ->
        (exists d, last cur = Some d /\ isLowerAlnum d = true) ->
        stripTrailing (cur ++ [hyphen] ++ replaceRuns true s)
        = joinWith [hyphen] (cur :: alnumRuns [] s)).
Proof.
  induction s as [| c r [IH1 IH2]]; split; intros cur.
  - intros Hc (d & L & A). simpl. rewrite app_nil_r.
    destruct cur as [| x t]; [done |]. cbn [truthy joinWith].
    apply last_Some in L as [l' ->]. by apply stripTrailing_alnum_end.
  - intros Hc (d & L & A). simpl.
    rewrite stripTrailing_app by done. simpl. by rewrite app_nil_r.
  - intros Hc HL. cbn [replaceRuns alnumRuns].
    destruct (isLowerAlnum c) eqn:A.
    + rewrite (cons_middle c), app_assoc. apply IH1.
      * by destruct cur.
      * exists c. by rewrite last_snoc.
    + destruct cur as [| x t]; [done |]. cbn [truthy].
      change ([x :: t] ++ alnumRuns [] r) with ((x :: t) :: alnumRuns [] r).
      by apply IH2.
  - intros Hc HL. cbn [replaceRuns alnumRuns].
    destruct (isLowerAlnum c) eqn:A.
    + cbn [app]. rewrite joinWith_cons by (apply alnumRuns_nonempty; done).
      rewrite <- (IH1 [c]) by (try done; exists c; done).
      rewrite (app_assoc cur [hyphen]).
      by rewrite stripTrailing_app, <- app_assoc.
    + cbn [truthy app]. by apply IH2.
Qed.

Lemma replaceRuns_true_runs s :
  stripTrailing (replaceRuns true s) = joinWith [hyphen] (alnumRuns [] s).
Proof.
  induction s as [| c r IH]; [done |]. cbn [replaceRuns alnumRuns].
  destruct (isLowerAlnum c) eqn:A; [| exact IH].
  apply (proj1 (replaceRuns_runs r) [c]); [done | by exists c].
Qed.

Lemma no_alnum_runs s cur :
  Forall (fun c => isLowerAlnum c = false) s ->
  alnumRuns cur s = if truthy cur then [cur] else [].
Proof.
  induction 1 as [| c r Hc Hr IH]; [done |]. simpl. rewrite Hc.
  destruct (truthy cur); simpl.
  - clear IH. induction Hr as [| c' r' Hc' Hr' IH']; [done |].
    simpl. by rewrite Hc'.
  - clear IH. induction Hr as [| c' r' Hc' Hr' IH']; [done |].
    simpl. by rewrite Hc'.
Qed.

Lemma alnumRuns_nil_iff s :
  alnumRuns [] s = [] <-> Forall (fun c => isLowerAlnum c = false) s.
Proof.
  split; [| intros H; by rewrite no_alnum_runs].
  induction s as [| c r IH]; [constructor |]. simpl.
  destruct (isLowerAlnum c) eqn:A.
  - intros H. by apply alnumRuns_nonempty in H.
  - intros H. constructor; [done | by apply IH].
Qed.

Lemma joinWith_nil_iff sep l :
  Forall (fun x : jsstring => x <> []) l -> joinWith sep l = [] <-> l = [].
Proof.
  intros H. split; [| by intros ->].
  destruct H as [| x l Hx Hl]; [done |].
  destruct l; simpl; [done |]. by destruct x.
Qed.

Lemma alnumRuns_runs s : forall cur,
  Forall (fun c => isLowerAlnum c = true) cur ->
  Forall (fun x : jsstring => x <> [] /\ Forall (fun c => isLowerAlnum c = true) x)
    (alnumRuns cur s).
Proof.
  assert (forall cur, Forall (fun c => isLowerAlnum c = true) cur ->
            Forall (fun x : jsstring =>
                      x <> [] /\ Forall (fun c => isLowerAlnum c = true) x)
              (if truthy cur then [cur] else [])) as One.
  { intros [| c t] H; cbn [truthy]; [constructor |].
    constructor; [by split | constructor]. }
  induction s as [| c r IH]; intros cur H; simpl; [by apply One |].
  destruct (isLowerAlnum c) eqn:A.
  - apply IH, Forall_app. by repeat constructor.
  - apply Forall_app. split; [by apply One | apply IH; constructor].
Qed.

Section SlugifyRuns.

Variable toLowerCase : jsstring -> jsstring.

Lemma slugify_runs_eq (x : jsstring) :
  slugify toLowerCase x
  = joinWith [hyphen] (alnumRuns [] (toLowerCase (trim x))).
Proof.
  unfold slugify. generalize (toLowerCase (trim x)). intros s.
  destruct s as [| c r]; [done |]. cbn [replaceRuns alnumRuns].
  destruct (isLowerAlnum c) eqn:A.
  - cbn [stripLeading]. destruct (N.eqb_spec c hyphen) as [-> | _]; [done |].
    apply (proj1 (replaceRuns_runs r) [c]); [done | by exists c].
  - cbn [stripLeading]. rewrite N.eqb_refl. apply replaceRuns_true_runs.
Qed.

(** X7: the slug is the runs of lowercase letters and digits of the
    trimmed, lower-cased input, in their order, joined by one hyphen;
    every run is non-empty and made of letters and digits only. *)
Theorem slugify_joins_runs (x : jsstring) :
  let runs := alnumRuns [] (toLowerCase (trim x)) in
  slugify toLowerCase x = joinWith [hyphen] runs
  /\ Forall (fun r : jsstring =>
               r <> [] /\ Forall (fun c => isLowerAlnum c = true) r) runs.
Proof.
  intros runs. split; [apply slugify_runs_eq | by apply alnumRuns_runs].
Qed.

(** X8: the slug is empty exactly when the trimmed, lower-cased input
    has no lowercase letter and no digit: such a title or slug field
    gives the empty path segment. *)
Theorem slugify_empty_iff (x : jsstring) :
  slugify toLowerCase x = []
  <-> Forall (fun c => isLowerAlnum c = false) (toLowerCase (trim x)).
Proof.
  rewrite slugify_runs_eq, <- alnumRuns_nil_iff. apply joinWith_nil_iff.
  eapply Forall_impl; [by apply (alnumRuns_runs _ []) |]. by intros r [H _].
Qed.

End SlugifyRuns.

(** ** The asset map: which asset an id gives *)

(** X9: looking an id up in the asset map gives the value built for the
    last asset of the list with that id, and nothing when no asset has
    it; no stored width or height is 0. *)
Theorem assetMap_last_wins (assets : list asset) (id : jsstring) :
  assetMap assets !! id
  = assetValue <$> last (filter (fun a => sys_id a = id) assets)
  /\ (forall e, assetMap assets !! id = Some e ->
        width e <> Some 0 /\ height e <> Some 0).
Proof.
  assert (assetMap assets !! id
          = assetValue <$> last (filter (fun a => sys_id a = id) assets)) as E.
  { induction assets as [| a l IH] using rev_ind; [done |].
    rewrite assetMap_snoc, filter_app.
    destruct (decide (sys_id a = id)) as [Heq | Hne].
    - rewrite filter_cons_True, filter_nil by done.
      rewrite last_snoc. cbn [fmap option_fmap option_map].
      rewrite <- Heq. apply lookup_insert_eq.
    - rewrite filter_cons_False, filter_nil, app_nil_r by done.
      by rewrite lookup_insert_ne. }
  split; [exact E |].
  intros e He. rewrite E in He.
  destruct (last _) as [a |]; [| done]. injection He as <-.
  unfold assetValue, orNull. cbn [width height].
  split.
  - by destruct (_ ≫= img_width) as [[| p] |].
  - by destruct (_ ≫= img_height) as [[| p] |].
Qed.

(** ** The hero image of an entry *)

(** The img element of an image whose source is not empty. *)
Lemma renderNewsImage_shape (im : newsImage) (i : nat) :
  src im <> [] ->
  exists size,
    renderNewsImage (Some im) i
    = js "<img src=" ++ dq ++ src im ++ dq
      ++ js " alt=" ++ dq ++ esc (alt im) ++ dq
      ++ js " class=" ++ dq ++ js "news-image" ++ dq
      ++ js " loading=" ++ dq ++ (if (i =? 0)%nat then js "eager" else js "lazy") ++ dq
      ++ js " decoding=" ++ dq ++ js "async" ++ dq
      ++ js " fetchpriority=" ++ dq
      ++ (if (i =? 0)%nat then js "high" else js "low") ++ dq
      ++ size ++ js ">"
    /\ (numTruthy (im_width im) && numTruthy (im_height im) = false -> size = [])
    /\ (numTruthy (im_width im) && numTruthy (im_height im) = true ->
        exists w h, size = js " width=" ++ dq ++ w ++ dq
                           ++ js " height=" ++ dq ++ h ++ dq).
Proof.
  intros S. unfold renderNewsImage.
  destruct (src im) as [| c s] eqn:E; [done |]. cbn [truthy negb].
  cbv zeta. unfold attr.
  destruct (numTruthy (im_width im) && numTruthy (im_height im)).
  - exists (js " width=" ++ dq ++ numToString (default 0 (im_width im)) ++ dq
            ++ js " height=" ++ dq ++ numToString (default 0 (im_height im)) ++ dq).
    split; [| split; [done | eauto]].
    repeat match goal with
      | |- context [js ?s] =>
          let v := eval vm_compute in (js s) in change (js s) with v
      end.
    cbn [joinWith app]. rewrite <- ?app_assoc. cbn [app].
    repeat (f_equal; rewrite <- ?app_assoc; cbn [app]).
  - exists []. split; [| split; [done | done]].
    repeat match goal with
      | |- context [js ?s] =>
          let v := eval vm_compute in (js s) in change (js s) with v
      end.
    cbn [joinWith app]. rewrite <- ?app_assoc. cbn [app].
    repeat (f_equal; rewrite <- ?app_assoc; cbn [app]).
Qed.

(** X10: the hero image of a card or of an article page is left out
    exactly when the entry has no image or its asset is not in the asset
    map; an asset that was delivered always gives an img element, even
    with no file url: its src is the url of the asset, which begins with
    the scheme, its alt the escaped title of the entry or else of the
    asset, then the class, the loading, decoding and fetchpriority
    attributes, which depend on whether the index is 0, and the width
    and height attributes only when both numbers are there and not 0. *)
Theorem hero_image_rendered (assets : list asset) (it : entry) (i : nat) :
  (renderNewsImage (heroImage (assetMap assets) it) i = []
   <-> (forall id, e_image (entry_fields it) = Some id ->
                   assetMap assets !! id = None))
  /\ (forall id o,
        e_image (entry_fields it) = Some id ->
        assetMap assets !! id = Some o ->
        (exists path, url o = js "https:" ++ path)
        /\ exists size,
             renderNewsImage (heroImage (assetMap assets) it) i
             = js "<img src=" ++ dq ++ url o ++ dq
               ++ js " alt=" ++ dq
               ++ esc (orElse (orEmpty (e_title (entry_fields it))) (info_title o))
               ++ dq
               ++ js " class=" ++ dq ++ js "news-image" ++ dq
               ++ js " loading=" ++ dq
               ++ (if (i =? 0)%nat then js "eager" else js "lazy") ++ dq
               ++ js " decoding=" ++ dq ++ js "async" ++ dq
               ++ js " fetchpriority=" ++ dq
               ++ (if (i =? 0)%nat then js "high" else js "low") ++ dq
               ++ size ++ js ">"
             /\ (numTruthy (width o) && numTruthy (height o) = false -> size = [])
             /\ (numTruthy (width o) && numTruthy (height o) = true ->
                 exists w h, size = js " width=" ++ dq ++ w ++ dq
                                    ++ js " height=" ++ dq ++ h ++ dq)).
Proof.
  split.
  - unfold heroImage.
    destruct (e_image (entry_fields it)) as [id |]; cbn [mbind option_bind].
    + destruct (assetMap assets !! id) as [o |] eqn:L.
      * split; [| intros H; specialize (H id eq_refl); congruence].
        intros H. exfalso. cbn [renderNewsImage src] in H.
        destruct (assetMap_lookup _ _ _ L) as (a & _ & _ & ->).
        rewrite assetValue_url in H. cbn [truthy negb app js] in H.
        by apply (f_equal length) in H.
      * split; [by intros _ id' [= <-] | done].
    + split; [by intros _ id' | done].
  - intros id o E L.
    destruct (assetMap_lookup _ _ _ L) as (a & _ & _ & Ho).
    split; [subst o; rewrite assetValue_url; eauto |].
    unfold heroImage. rewrite E. cbn [mbind option_bind]. rewrite L.
    apply (renderNewsImage_shape
             {| src := url o;
                alt := orElse (orEmpty (e_title (entry_fields it))) (info_title o);
                im_width := width o; im_height := height o |} i).
    cbn [src]. subst o. apply assetValue_truthy.
Qed.

(** The entry with the logo, as the first card. *)
Lemma hero_image_rendered_witness :
  let logo := imageAsset (js "logo1") "//images.ctfassets.net/logo.png" in
  (exists path, url (assetValue logo) = js "https:" ++ path)
  /\ exists size,
       renderNewsImage (heroImage (assetMap [logo]) heroEntry) 0
       = js "<img src=" ++ dq ++ url (assetValue logo) ++ dq
         ++ js " alt=" ++ dq
         ++ esc (orElse (orEmpty (e_title (entry_fields heroEntry)))
                   (info_title (assetValue logo)))
         ++ dq
         ++ js " class=" ++ dq ++ js "news-image" ++ dq
         ++ js " loading=" ++ dq ++ js "eager" ++ dq
         ++ js " decoding=" ++ dq ++ js "async" ++ dq
         ++ js " fetchpriority=" ++ dq ++ js "high" ++ dq
         ++ size ++ js ">"
       /\ (numTruthy (width (assetValue logo))
           && numTruthy (height (assetValue logo)) = false -> size = [])
       /\ (numTruthy (width (assetValue logo))
           && numTruthy (height (assetValue logo)) = true ->
           exists w h, size = js " width=" ++ dq ++ w ++ dq
                              ++ js " height=" ++ dq ++ h ++ dq).
Proof.
  cbv zeta.
  apply (proj2 (hero_image_rendered
                  [imageAsset (js "logo1") "//images.ctfassets.net/logo.png"]
                  heroEntry 0) (js "logo1")); reflexivity.
Defined.

(** ** The URLs of the sitemap *)

Lemma slugUnit_not_significant c : slugUnit c -> ~ htmlSignificant c.
Proof. unfold slugUnit, htmlSignificant. lia. Qed.

(** A literal of the script without any of the five characters. *)
Ltac plain_literal :=
  match goal with
  | |- Forall _ (js ?s) =>
      let v := eval vm_compute in (js s) in change (js s) with v
  end;
  repeat (constructor; [unfold htmlSignificant; lia |]); constructor.

Lemma lookup_map {A B} (f : A -> B) (l : list A) (i : nat) :
  List.map f l !! i = f <$> l !! i.
Proof.
  revert i. induction l as [| x l IH]; intros [| i]; try done. apply IH.
Qed.

Section SitemapFacts.

Variable toLowerCase : jsstring -> jsstring.

Lemma entrySlug_slugFrom it :
  slugFrom true (entrySlug toLowerCase it) = true
  /\ last (entrySlug toLowerCase it) <> Some hyphen.
Proof. unfold entrySlug. destruct (truthy _); apply slugify_slugFrom. Qed.

(** X11: the sitemap lists the listing page and then one URL per
    entry, in the order of the entries; the URL of an entry is the
    site's news path, the entry's slug and a slash, the slug being
    well formed; no URL holds a character that XML would need
    escaped. *)
Theorem sitemapUrls_shape (items : list entry) :
  length (sitemapUrls toLowerCase items) = S (length items)
  /\ sitemapUrls toLowerCase items !! 0%nat = Some (js "https://esegames.com/NEWS")
  /\ (forall (i : nat) it, items !! i = Some it ->
        sitemapUrls toLowerCase items !! S i
        = Some (js "https://esegames.com/news/"
                ++ entrySlug toLowerCase it ++ js "/")
        /\ wellFormedSlug (entrySlug toLowerCase it))
  /\ Forall (Forall (fun c => ~ htmlSignificant c)) (sitemapUrls toLowerCase items).
Proof.
  unfold sitemapUrls. split; [by rewrite length_cons, length_map |].
  split; [done |]. split.
  - intros i it Hi. split.
    + rewrite lookup_cons. by rewrite lookup_map, Hi.
    + destruct (entrySlug_slugFrom it). by apply slugFrom_wellFormed.
  - constructor; [plain_literal |].
    apply Forall_forall. intros u Hu.
    apply list_elem_of_In, in_map_iff in Hu as (it & <- & _).
    rewrite !Forall_app. split; [plain_literal | split; [| plain_literal]].
    destruct (entrySlug_slugFrom it) as [S _].
    eapply Forall_impl; [by eapply slugFrom_units |].
    apply slugUnit_not_significant.
Qed.

End SitemapFacts.

(** Two entries: a title with punctuation and one with a hero image. *)
Lemma sitemapUrls_shape_witness :
  sitemapUrls asciiLower [titledEntry "Hello, World!"; heroEntry] !! 1%nat
  = Some (js "https://esegames.com/news/hello-world/")
  /\ wellFormedSlug (entrySlug asciiLower (titledEntry "Hello, World!")).
Proof.
  apply (proj1 (proj2 (proj2 (sitemapUrls_shape asciiLower
                                [titledEntry "Hello, World!"; heroEntry])))
           0%nat (titledEntry "Hello, World!")).
  reflexivity.
Defined.

(** ** Headings and hyperlinks *)

Lemma untilHyphen_plain level :
  Forall (fun c => c <> hyphen) level -> untilHyphen level = level.
Proof.
  induction 1 as [| c r Hc Hr IH]; [done |]. simpl.
  destruct (N.eqb_spec c hyphen); [done |]. by rewrite IH.
Qed.

Section MoreRenderFacts.

Variable assets : gmap jsstring assetInfo.

(** X12: a node whose type is heading- followed by a level without a
    hyphen renders its children between the opening and the closing
    tag of that level; the level is not checked against 1 to 6. *)
Theorem heading_render (n : node) (level : jsstring) :
  nodeType n = js "heading-" ++ level ->
  Forall (fun c => c <> hyphen) level ->
  renderNode assets n
  = js "<h" ++ level ++ js ">" ++ renderNodes assets (content n)
    ++ js "</h" ++ level ++ js ">".
Proof.
  intros H L. rewrite renderNode_eq. cbv zeta. rewrite H.
  unfold streq at 1 2.
  rewrite !bool_decide_eq_false_2 by (intros E; cbn in E; discriminate E).
  rewrite startsWith_app. unfold headingLevel.
  change (drop 8 (js "heading-" ++ level)) with level.
  rewrite (untilHyphen_plain level L). unfold tag.
  by rewrite <- !app_assoc.
Qed.

(** X13: a hyperlink renders as an anchor that opens in a new context
    without access to its opener, around its children; the href is the
    escaped uri, or the placeholder # when the uri is missing or
    empty, so that it is never empty and never holds a quote or an
    angle bracket. *)
Theorem hyperlink_render (n : node) :
  nodeType n = js "hyperlink" ->
  exists href,
    renderNode assets n
    = js "<a href=" ++ dq ++ href ++ dq ++ js " target=" ++ dq ++ js "_blank" ++ dq
      ++ js " rel=" ++ dq ++ js "noopener" ++ dq ++ js ">"
      ++ renderNodes assets (content n) ++ js "</a>"
    /\ href <> [] /\ Forall inert href
    /\ href = match data n ≫= uri with
              | Some (c :: u) => esc (c :: u)
              | _ => js "#"
              end.
Proof.
  intros H. rewrite renderNode_eq. cbv zeta. rewrite H.
  repeat match goal with
    | |- context [streq ?a ?b] =>
        let v := eval vm_compute in (streq a b) in change (streq a b) with v
    | |- context [startsWith ?a ?b] =>
        let v := eval vm_compute in (startsWith a b) in
        change (startsWith a b) with v
    end.
  cbv iota.
  eexists. split; [reflexivity |].
  destruct (data n ≫= uri) as [[| c u] |]; cbn [orEmpty truthy].
  - split; [done |]. split; [| done].
    repeat constructor; discriminate.
  - split; [| split; [apply esc_safe | done]].
    intros E. pose proof (esc_length (c :: u)) as L. rewrite E in L.
    simpl in L. lia.
  - split; [done |]. split; [| done].
    repeat constructor; discriminate.
Qed.

End MoreRenderFacts.

(** A heading of level 2. *)
Lemma heading_render_witness :
  renderNode ∅ (blockNode "heading-2" [textNode "News" []])
  = js "<h2>News</h2>".
Proof.
  rewrite (heading_render ∅ (blockNode "heading-2" [textNode "News" []]) (js "2")).
  - reflexivity.
  - reflexivity.
  - repeat constructor. discriminate.
Defined.

(** A link without a uri. *)
Lemma hyperlink_render_witness :
  exists href,
    renderNode ∅ (blockNode "hyperlink" [textNode "here" []])
    = js "<a href=" ++ dq ++ href ++ dq ++ js " target=" ++ dq ++ js "_blank" ++ dq
      ++ js " rel=" ++ dq ++ js "noopener" ++ dq ++ js ">"
      ++ renderNodes ∅ (content (blockNode "hyperlink" [textNode "here" []]))
      ++ js "</a>"
    /\ href <> [] /\ Forall inert href
    /\ href = js "#".
Proof.
  apply (hyperlink_render ∅ (blockNode "hyperlink" [textNode "here" []])).
  reflexivity.
Defined.

(** ** Case-insensitive search *)

Lemma startsWithCI_take s : forall pat,
  startsWithCI s pat = true ->
  (length pat <= length s)%nat /\ startsWithCI (take (length pat) s) pat = true.
Proof.
  induction s as [| c s IH]; intros [| p pat] H.
  - split; [simpl; lia | done].
  - done.
  - split; [simpl; lia | done].
  - simpl in H. apply andb_true_iff in H as [E H].
    destruct (IH pat H) as [L T]. split; [simpl; lia |].
    simpl. by rewrite E, T.
Qed.

Lemma startsWithCI_app m pat r :
  matchesCI m pat -> startsWithCI (m ++ r) pat = true.
Proof.
  intros [L H]. revert pat L H.
  induction m as [| c m IH]; intros [| p pat] L H;
    [by destruct r | discriminate L | reflexivity |].
  simpl in *. apply andb_true_iff in H as [E H]. rewrite E. simpl.
  apply IH; [by injection L | done].
Qed.

Lemma splitFirstCI_eq pat s :
  splitFirstCI pat s =
  if startsWithCI s pat
  then Some ([], take (length pat) s, drop (length pat) s)
  else match s with
       | [] => None
       | c :: r =>
           match splitFirstCI pat r with
           | Some (pre, m, post) => Some (c :: pre, m, post)
           | None => None
           end
       end.
Proof. by destruct s. Qed.

Lemma splitFirstCI_sound pat s : forall pre m post,
  splitFirstCI pat s = Some (pre, m, post) ->
  s = pre ++ m ++ post /\ matchesCI m pat.
Proof.
  assert (forall s, startsWithCI s pat = true ->
            s = [] ++ take (length pat) s ++ drop (length pat) s
            /\ matchesCI (take (length pat) s) pat) as Here.
  { intros s0 H. destruct (startsWithCI_take _ _ H) as [L T].
    split; [by rewrite take_drop |]. split; [| done].
    rewrite length_take. lia. }
  induction s as [| c r IH]; intros pre m post; rewrite splitFirstCI_eq;
    destruct (startsWithCI _ pat) eqn:S.
  - intros [= <- <- <-]. by apply Here.
  - done.
  - intros [= <- <- <-]. by apply Here.
  - destruct (splitFirstCI pat r) as [[[pre' m'] post'] |]; [| done].
    intros [= <- <- <-]. destruct (IH _ _ _ eq_refl) as [E M].
    split; [| done]. simpl. by f_equal.
Qed.

Lemma splitFirstCI_complete pat a : forall m b,
  matchesCI m pat ->
  exists pre m' post,
    splitFirstCI pat (a ++ m ++ b) = Some (pre, m', post)
    /\ (length pre <= length a)%nat.
Proof.
  induction a as [| c a IH]; intros m b M.
  - rewrite splitFirstCI_eq. cbn [app]. rewrite (startsWithCI_app m pat b M).
    eexists _, _, _. split; [done |]. simpl. lia.
  - rewrite splitFirstCI_eq. destruct (startsWithCI _ pat).
    + eexists _, _, _. split; [done |]. simpl. lia.
    + cbn [app]. destruct (IH m b M) as (pre & m' & post & -> & L).
      eexists _, _, _. split; [done |]. simpl. lia.
Qed.

(** ** The header and the footer *)

(** X14: the header (or footer) taken from the template is the empty
    string exactly when the template has no opening of that landmark
    followed by its closing tag, in any case; otherwise it is a piece of
    the template that runs from an opening to a closing tag. *)
Theorem landmark_found (name : string) (tpl : jsstring) :
  (landmark name tpl = [] <-> ~ hasLandmark name tpl)
  /\ (hasLandmark name tpl ->
      exists pre o inner c post,
        tpl = pre ++ o ++ inner ++ c ++ post
        /\ landmark name tpl = o ++ inner ++ c
        /\ matchesCI o (js "<" ++ js name)
        /\ matchesCI c (js "</" ++ js name ++ js ">")).
Proof.
  unfold landmark.
  destruct (splitFirstCI (js "<" ++ js name) tpl) as [[[pre o] after] |] eqn:S1.
  - destruct (splitFirstCI_sound _ _ _ _ _ S1) as [E1 M1].
    destruct (splitFirstCI (js "</" ++ js name ++ js ">") after)
      as [[[inner c] post] |] eqn:S2.
    + destruct (splitFirstCI_sound _ _ _ _ _ S2) as [E2 M2].
      assert (hasLandmark name tpl) as Has.
      { exists pre, o, inner, c, post. by rewrite E1, E2. }
      split.
      * split; [| done]. intros E. exfalso.
        destruct M1 as [L1 _]. apply (f_equal length) in E.
        rewrite length_app, L1 in E. simpl in E. lia.
      * intros _. exists pre, o, inner, c, post. by rewrite E1, E2.
    + assert (~ hasLandmark name tpl) as No.
      { intros (a & o' & b & c & d & E & Mo & Mc).
        destruct (splitFirstCI_complete _ a o' (b ++ c ++ d) Mo)
          as (pre' & m' & post' & S' & L).
        rewrite <- E, S1 in S'. injection S' as <- <- <-.
        assert (exists x, after = x ++ c ++ d) as [x ->].
        { exists (drop (length pre + length o) (a ++ o') ++ b).
          pose proof E as D. rewrite E1 in D.
          apply (f_equal (drop (length pre + length o))) in D.
          rewrite (app_assoc pre) in D.
          rewrite (drop_app_length' (pre ++ o) after) in D
            by (rewrite length_app; lia).
          rewrite D, (app_assoc a).
          destruct M1 as [L1 _], Mo as [Lo _].
          rewrite (drop_app_le (a ++ o')) by (rewrite length_app; lia).
          by rewrite <- app_assoc. }
        destruct (splitFirstCI_complete _ x c d Mc) as (? & ? & ? & S'' & _).
        congruence. }
      split; [done | by intros H].
  - assert (~ hasLandmark name tpl) as No.
    { intros (a & o' & b & c & d & E & Mo & Mc).
      destruct (splitFirstCI_complete _ a o' (b ++ c ++ d) Mo)
        as (pre' & m' & post' & S' & L).
      rewrite <- E in S'. congruence. }
    split; [done | by intros H].
Qed.

(** The header of a page whose head is in capitals. *)
Lemma landmark_found_witness :
  exists pre o inner c post,
    pageWithHead = pre ++ o ++ inner ++ c ++ post
    /\ landmark "header" pageWithHead = o ++ inner ++ c
    /\ matchesCI o (js "<" ++ js "header")
    /\ matchesCI c (js "</" ++ js "header" ++ js ">").
Proof.
  apply (proj2 (landmark_found "header" pageWithHead)).
  exists (js "<html><HEAD><title>News</title></HEAD><body>"),
    (js "<header"), (js " class=top>menu"), (js "</header>"), (js "</body></html>").
  repeat split; reflexivity.
Defined.

(** ** The RSS link *)

Lemma hasRssLink_eq s :
  hasRssLink s = rssLinkAt s || match s with [] => false | _ :: r => hasRssLink r end.
Proof. by destruct s. Qed.

Lemma hasRssLink_app pre s : hasRssLink s = true -> hasRssLink (pre ++ s) = true.
Proof.
  intros H. induction pre as [| c pre IH]; [done |].
  rewrite hasRssLink_eq. cbn [app]. rewrite IH. apply orb_true_r.
Qed.

Lemma hasRssLink_line pre post : hasRssLink (pre ++ rssLinkLine ++ post) = true.
Proof.
  apply hasRssLink_app. unfold rssLinkLine. rewrite <- !app_assoc.
  apply hasRssLink_app. rewrite hasRssLink_eq.
  apply orb_true_iff. left. reflexivity.
Qed.

(** A closing head tag somewhere in the page is what the search for the
    first one needs, and the one found starts no later than any other. *)
Lemma splitFirstCI_first pat page pre m post :
  splitFirstCI pat page = Some (pre, m, post) ->
  forall a m' b, page = a ++ m' ++ b -> matchesCI m' pat ->
    (length pre <= length a)%nat.
Proof.
  intros S a m' b -> M.
  destruct (splitFirstCI_complete pat a m' b M) as (pre' & m'' & post' & S' & L).
  rewrite S in S'. by injection S' as -> _ _.
Qed.

Lemma hasHeadClose_split page :
  hasHeadClose page <-> is_Some (splitFirstCI (js "</head>") page).
Proof.
  split.
  - intros (a & m & b & -> & M).
    destruct (splitFirstCI_complete _ a m b M) as (pre & m' & post & -> & _).
    eauto.
  - intros [[[pre m] post] S].
    destruct (splitFirstCI_sound _ _ _ _ _ S) as [E M].
    by exists pre, m, post.
Qed.

(** X15: the step that ensures the RSS link leaves a page that has the
    link as it is, and also a page that has neither the link nor a
    closing head tag; in a page without the link that has a closing head
    tag, in any case of its letters, it puts the link line in the place
    of the first one, the text before and after that tag unchanged;
    after it the page has the link exactly when it had it before or had
    a closing head tag; done twice it does what it does once, so a build
    on its own output adds no second link. *)
Theorem ensureRssLink_idempotent (page : jsstring) :
  ensureRssLink (ensureRssLink page) = ensureRssLink page
  /\ (hasRssLink page = true -> ensureRssLink page = page)
  /\ (hasRssLink page = false -> ~ hasHeadClose page ->
      ensureRssLink page = page)
  /\ (hasRssLink page = false -> hasHeadClose page ->
      exists pre m post,
        page = pre ++ m ++ post
        /\ matchesCI m (js "</head>")
        /\ (forall a m' b, page = a ++ m' ++ b -> matchesCI m' (js "</head>") ->
              (length pre <= length a)%nat)
        /\ ensureRssLink page = pre ++ rssLinkLine ++ post)
  /\ (hasRssLink (ensureRssLink page) = true
      <-> hasRssLink page = true \/ hasHeadClose page).
Proof.
  rewrite hasHeadClose_split.
  destruct (hasRssLink page) eqn:H.
  - assert (ensureRssLink page = page) as E by (unfold ensureRssLink; by rewrite H).
    rewrite !E, H. repeat split; try done. by left.
  - destruct (splitFirstCI (js "</head>") page) as [[[pre m] post] |] eqn:S.
    + assert (ensureRssLink page = pre ++ rssLinkLine ++ post) as E
        by (unfold ensureRssLink; by rewrite H, S).
      rewrite !E. split; [| split; [| split; [| split]]].
      * unfold ensureRssLink. by rewrite hasRssLink_line.
      * done.
      * intros _ N. destruct N. eauto.
      * intros _ _. exists pre, m, post.
        destruct (splitFirstCI_sound _ _ _ _ _ S) as [P M].
        split; [done |]. split; [done |]. split; [| done].
        by apply (splitFirstCI_first _ _ _ _ _ S).
      * split; [intros _; right; eauto | intros _; apply hasRssLink_line].
    + assert (ensureRssLink page = page) as E
        by (unfold ensureRssLink; by rewrite H, S).
      rewrite !E, H. split; [done |]. split; [done |]. split; [done |].
      split; [by intros _ [? ?] |].
      split; [done |]. by intros [? | [? ?]].
Qed.

(** The page whose head is in capitals has no link and a closing head
    tag: the link line takes the place of that tag. *)
Lemma ensureRssLink_idempotent_witness :
  exists pre m post,
    pageWithHead = pre ++ m ++ post
    /\ matchesCI m (js "</head>")
    /\ (forall a m' b, pageWithHead = a ++ m' ++ b ->
          matchesCI m' (js "</head>") -> (length pre <= length a)%nat)
    /\ ensureRssLink pageWithHead = pre ++ rssLinkLine ++ post.
Proof.
  apply (proj1 (proj2 (proj2 (proj2 (ensureRssLink_idempotent pageWithHead))))).
  - reflexivity.
  - exists (js "<html><HEAD><title>News</title>"), (js "</HEAD>"),
      (js "<body><header class=top>menu</header></body></html>").
    split; [reflexivity |]. split; reflexivity.
Defined.

(** ** The card splice on its own output *)

Lemma startsWith_long x pat : forall r,
  (length pat <= length x)%nat -> startsWith (x ++ r) pat = startsWith x pat.
Proof.
  revert pat. induction x as [| c x IH]; intros [| p pat] r L; try done.
  - by destruct r.
  - simpl in L. lia.
  - simpl in *. rewrite IH by lia. done.
Qed.

(** Where the first occurrence of a pattern lies depends on the text up
    to its end only. *)
Lemma splitFirst_stable pat pre : forall a b,
  splitFirst pat (pre ++ pat ++ a) = Some (pre, a) ->
  splitFirst pat (pre ++ pat ++ b) = Some (pre, b).
Proof.
  induction pre as [| c pre IH]; intros a b H.
  - rewrite splitFirst_eq. cbn [app]. rewrite startsWith_app.
    by rewrite drop_app_length.
  - rewrite splitFirst_eq in H. rewrite splitFirst_eq.
    assert (startsWith ((c :: pre) ++ pat ++ b) pat
            = startsWith ((c :: pre) ++ pat ++ a) pat) as ->.
    { rewrite !(app_assoc (c :: pre) pat).
      rewrite (startsWith_long ((c :: pre) ++ pat) pat a) by (rewrite length_app; lia).
      by rewrite (startsWith_long ((c :: pre) ++ pat) pat b)
        by (rewrite length_app; lia). }
    destruct (startsWith ((c :: pre) ++ pat ++ a) pat); [done |].
    cbn [app] in *.
    destruct (splitFirst pat (pre ++ pat ++ a)) as [[p q] |] eqn:S; [| done].
    injection H as -> ->. by rewrite (IH a b S).
Qed.

(** The end marker begins with a less-than sign and an exclamation
    mark. *)
Lemma startsWith_END_false c x :
  c <> 0x3C \/ head x <> Some 0x21 -> startsWith (c :: x) END_MARK = false.
Proof.
  intros H. unfold END_MARK.
  change (js "<!-- END:NEWS-LIST -->")
    with (0x3C :: 0x21 :: js "-- END:NEWS-LIST -->").
  cbn [startsWith].
  destruct (N.eqb_spec c 0x3C) as [-> | _]; [| done].
  destruct H as [H | H]; [done |].
  destruct x as [| d s]; [done |]. cbn [startsWith andb].
  destruct (N.eqb_spec d 0x21) as [-> | _]; [| reflexivity].
  exfalso. by apply H.
Qed.

(** No end marker begins inside cards in which no comment begins. *)
Lemma splitFirst_end_after_cards cards : forall post,
  noCommentStart cards = true ->
  splitFirst END_MARK ((cards ++ [0x0A]) ++ END_MARK ++ post)
  = Some (cards ++ [0x0A], post).
Proof.
  induction cards as [| c r IH]; intros post H.
  - change (([] ++ [0x0A]) ++ END_MARK ++ post) with (0x0A :: (END_MARK ++ post)).
    rewrite splitFirst_eq, startsWith_END_false by (by left).
    rewrite splitFirst_eq, startsWith_app. by rewrite drop_app_length.
  - rewrite splitFirst_eq.
    change (((c :: r) ++ [0x0A]) ++ END_MARK ++ post)
      with (c :: ((r ++ [0x0A]) ++ END_MARK ++ post)).
    rewrite startsWith_END_false.
    + rewrite IH; [done |].
      destruct r as [| d r']; [done |]. cbn [noCommentStart] in H.
      by apply andb_true_iff in H as [_ H].
    + destruct r as [| d r']; [right; simpl; congruence |].
      cbn [noCommentStart] in H. apply andb_true_iff in H as [H _].
      apply negb_true_iff, andb_false_iff in H as [H | H].
      * left. by apply N.eqb_neq.
      * right. simpl. apply N.eqb_neq in H. congruence.
Qed.

Lemma matchMarkers_after_splice tpl cards pre mid post :
  matchMarkers tpl = Some (pre, mid, post) ->
  noCommentStart cards = true ->
  matchMarkers (pre ++ START_MARK ++ [0x0A] ++ cards ++ [0x0A] ++ END_MARK ++ post)
  = Some (pre, [0x0A] ++ cards ++ [0x0A], post).
Proof.
  intros M H. pose proof (matchMarkers_sound _ _ _ _ M) as E.
  unfold matchMarkers in *.
  destruct (splitFirst START_MARK tpl) as [[p afterStart] |] eqn:S; [| done].
  destruct (splitFirst END_MARK afterStart) as [[m q] |] eqn:S2; [| done].
  injection M as -> -> ->.
  pose proof (splitFirst_sound _ _ _ _ S) as E1. rewrite E1 in S.
  rewrite (splitFirst_stable _ _ _ _ S).
  change ([0x0A] ++ cards ++ [0x0A] ++ END_MARK ++ post)
    with (0x0A :: (cards ++ [0x0A] ++ END_MARK ++ post)).
  rewrite splitFirst_eq, startsWith_END_false by (by left).
  rewrite (app_assoc cards), splitFirst_end_after_cards by done.
  reflexivity.
Qed.

(** X16: the splice run on its own output replaces the cards of the
    run before: for cards without a dollar sign, the earlier ones with
    no comment beginning in them, splicing the second cards into the
    page that holds the first gives the page that the template gives
    with the second cards; the markers stay in place. *)
Theorem newsPage_rerun (tpl cards1 cards2 : jsstring) :
  Forall (fun c => c <> dollar) cards1 ->
  Forall (fun c => c <> dollar) cards2 ->
  noCommentStart cards1 = true ->
  newsPage (newsPage tpl cards1) cards2 = newsPage tpl cards2
  /\ (hasMarkerPair tpl -> hasMarkerPair (newsPage tpl cards1)).
Proof.
  intros D1 D2 N.
  destruct (matchMarkers tpl) as [[[pre mid] post] |] eqn:M.
  - rewrite (newsPage_splices _ _ _ _ _ M D1).
    pose proof (matchMarkers_after_splice _ cards1 _ _ _ M N) as M'.
    rewrite (newsPage_splices _ _ _ _ _ M' D2).
    rewrite (newsPage_splices _ _ _ _ _ M D2).
    split; [done |]. intros _.
    exists pre, ([0x0A] ++ cards1 ++ [0x0A]), post. by rewrite <- !app_assoc.
  - assert (newsPage tpl cards1 = tpl) as -> by (unfold newsPage; by rewrite M).
    split; [done | done].
Qed.

(** The marked page built with one card and then with another. *)
Lemma newsPage_rerun_witness :
  newsPage (newsPage markedTemplate exampleCard) (js "<article>later</article>")
  = newsPage markedTemplate (js "<article>later</article>").
Proof.
  apply (newsPage_rerun markedTemplate exampleCard (js "<article>later</article>")).
  - unfold exampleCard.
    match goal with
    | |- Forall _ (js ?s) =>
        let v := eval vm_compute in (js s) in change (js s) with v
    end.
    repeat (constructor; [discriminate |]). constructor.
  - match goal with
    | |- Forall _ (js ?s) =>
        let v := eval vm_compute in (js s) in change (js s) with v
    end.
    repeat (constructor; [discriminate |]). constructor.
  - reflexivity.
Defined.

(** ** The excerpt and the collapsible rest of a card *)

Lemma pick_rest_full n nodes : forall taken,
  (n <= taken)%Z ->
  pick (negb <$> scanMask n taken nodes) nodes = nodes.
Proof.
  induction nodes as [| x r IH]; intros taken H; [done |].
  cbn [scanMask]. rewrite (proj2 (Z.ltb_ge taken n) H). cbn [andb].
  cbn [fmap list_fmap negb pick]. by rewrite IH.
Qed.

Lemma pick_rest_prefix n tail ps : forall taken,
  Forall (fun x => isParagraph x = true) ps ->
  (taken + Z.of_nat (length ps) <= n)%Z ->
  pick (negb <$> scanMask n taken (ps ++ tail)) (ps ++ tail)
  = pick (negb <$> scanMask n (taken + Z.of_nat (length ps)) tail) tail.
Proof.
  induction ps as [| x r IH]; intros taken P L.
  - cbn [app length]. by rewrite Z.add_0_r.
  - apply Forall_cons in P as [Px Pr]. cbn [app scanMask].
    rewrite Px, (proj2 (Z.ltb_lt taken n)) by (simpl in L; lia).
    cbn [andb fmap list_fmap negb pick].
    rewrite IH by (try done; simpl in L; lia).
    do 3 f_equal. simpl. lia.
Qed.

Lemma pick_rest_nil_iff n nodes : forall taken,
  (taken <= n)%Z ->
  pick (negb <$> scanMask n taken nodes) nodes = []
  <-> Forall (fun x => isParagraph x = true) nodes
      /\ (taken + Z.of_nat (length nodes) <= n)%Z.
Proof.
  induction nodes as [| x r IH]; intros taken H.
  - simpl. split; [intros _; split; [constructor | lia] | done].
  - cbn [scanMask].
    destruct (taken <? n)%Z eqn:T, (isParagraph x) eqn:P;
      cbn [andb fmap list_fmap negb pick].
    + apply Z.ltb_lt in T. rewrite IH by lia. rewrite Forall_cons.
      simpl length. split; intros [A B]; (split; [tauto | lia]).
    + split; [done |]. intros [A _]. apply Forall_cons in A as [A _]. congruence.
    + apply Z.ltb_ge in T. split; [done |]. intros [_ B]. simpl in B. lia.
    + split; [done |]. intros [A _]. apply Forall_cons in A as [A _]. congruence.
Qed.

Section ExcerptFacts.

Variable assets : gmap jsstring assetInfo.

Lemma renderRich_topLevel rt :
  renderRich assets rt = renderNodes assets (Some (topLevel rt)).
Proof. unfold renderRich, topLevel. by destruct (rt ≫= content). Qed.

(** X17: when the body begins with n paragraphs, the lead is these
    paragraphs and the rest is what follows them, so that the excerpt
    of a card followed by its collapsible part is the rendering of the
    whole body. *)
Theorem splitLead_leading_paragraphs (rt : option node) (n : Z)
    (ps tail : list node) :
  topLevel rt = ps ++ tail ->
  Forall (fun x => isParagraph x = true) ps ->
  Z.of_nat (length ps) = n ->
  topLevel (Some (lead (splitLead rt n))) = ps
  /\ topLevel (Some (rest (splitLead rt n))) = tail
  /\ renderRich assets (Some (lead (splitLead rt n)))
     ++ renderRich assets (Some (rest (splitLead rt n)))
     = renderRich assets rt.
Proof.
  intros E P L.
  destruct (splitLead_nodes rt n) as [Hl Hr].
  rewrite <- scanMask_leadMask, E in Hl, Hr.
  assert (topLevel (Some (lead (splitLead rt n))) = ps) as Hl'.
  { rewrite Hl, pick_scanMask, Z.sub_0_r, <- L, Nat2Z.id.
    rewrite List.filter_app.
    assert (List.filter isParagraph ps = ps) as ->.
    { clear -P. induction P as [| x r Hx Hr IH]; [done |].
      simpl. by rewrite Hx, IH. }
    by rewrite take_app_length. }
  assert (topLevel (Some (rest (splitLead rt n))) = tail) as Hr'.
  { rewrite Hr, pick_rest_prefix by (try done; lia).
    apply pick_rest_full. lia. }
  split; [exact Hl' |]. split; [exact Hr' |].
  rewrite !renderRich_topLevel, Hl', Hr', E.
  by rewrite renderNodes_app.
Qed.

End ExcerptFacts.

(** X18: for a limit of at least 0, a card has no collapsible part
    exactly when every top-level node of the body is a paragraph and
    there are no more of them than the limit; an empty or missing body
    has none. *)
Theorem hasMore_iff (rt : option node) (n : Z) :
  (0 <= n)%Z ->
  hasMore (rest (splitLead rt n)) = false
  <-> Forall (fun x => isParagraph x = true) (topLevel rt)
      /\ (Z.of_nat (length (topLevel rt)) <= n)%Z.
Proof.
  intros H.
  destruct (splitLead_nodes rt n) as [_ Hr].
  rewrite <- scanMask_leadMask in Hr.
  rewrite <- (Z.add_0_l (Z.of_nat _)), <- (pick_rest_nil_iff n _ 0 H), <- Hr.
  unfold hasMore, topLevel. cbn [mbind option_bind].
  unfold splitLead. destruct (splitLoop _ _ _ _ _) as [l r]. cbn [rest content document orNil].
  by destruct r.
Qed.

(** A body of one heading and three paragraphs has a collapsible part; a
    body of one paragraph has none. *)
Lemma hasMore_iff_witness :
  hasMore (rest (splitLead (Some (document [blockNode "paragraph" []])) 1)) = false.
Proof.
  apply (proj2 (hasMore_iff (Some (document [blockNode "paragraph" []])) 1
                  ltac:(lia))).
  split; [by repeat constructor | simpl; lia].
Defined.

(** A body of two paragraphs and a rule, split after the first. *)
Lemma splitLead_leading_paragraphs_witness :
  let body := document [blockNode "paragraph" [textNode "one" []];
                        blockNode "paragraph" [textNode "two" []];
                        blockNode "hr" []] in
  topLevel (Some (lead (splitLead (Some body) 1)))
  = [blockNode "paragraph" [textNode "one" []]]
  /\ topLevel (Some (rest (splitLead (Some body) 1)))
     = [blockNode "paragraph" [textNode "two" []]; blockNode "hr" []]
  /\ renderRich ∅ (Some (lead (splitLead (Some body) 1)))
     ++ renderRich ∅ (Some (rest (splitLead (Some body) 1)))
     = renderRich ∅ (Some body).
Proof.
  cbv zeta.
  apply (splitLead_leading_paragraphs ∅
           (Some (document [blockNode "paragraph" [textNode "one" []];
                            blockNode "paragraph" [textNode "two" []];
                            blockNode "hr" []])) 1
           [blockNode "paragraph" [textNode "one" []]]
           [blockNode "paragraph" [textNode "two" []]; blockNode "hr" []]).
  - reflexivity.
  - by repeat constructor.
  - reflexivity.
Defined.

(** ** The card splice with the markers in place *)

Lemma splitFirst_first pat s pre post :
  splitFirst pat s = Some (pre, post) ->
  forall a b, s = a ++ pat ++ b -> (length pre <= length a)%nat.
Proof.
  intros S a b ->.
  destruct (splitFirst_complete pat a b) as (pre' & post' & S' & L).
  rewrite S in S'. by injection S' as <- <-.
Qed.

(** X19: when the template has the two markers and the cards hold no
    dollar sign, the page is the template with the cards, between two
    newlines, in the place of what stood between the first start marker
    and the first end marker after it; the markers and all the text
    before and after them are kept as they are. *)
Theorem newsPage_replaces_region (tpl cards : jsstring) :
  hasMarkerPair tpl ->
  Forall (fun c => c <> dollar) cards ->
  exists pre mid post,
    tpl = pre ++ START_MARK ++ mid ++ END_MARK ++ post
    /\ newsPage tpl cards
       = pre ++ START_MARK ++ [0x0A] ++ cards ++ [0x0A] ++ END_MARK ++ post
    /\ (forall a b, tpl = a ++ START_MARK ++ b -> (length pre <= length a)%nat)
    /\ (forall x y, mid ++ END_MARK ++ post = x ++ END_MARK ++ y ->
                    (length mid <= length x)%nat).
Proof.
  intros Has D.
  destruct (matchMarkers_complete tpl Has) as [[[pre mid] post] M].
  exists pre, mid, post.
  split; [by apply matchMarkers_sound |].
  split; [by apply (newsPage_splices tpl cards pre mid post) |].
  unfold matchMarkers in M.
  destruct (splitFirst START_MARK tpl) as [[p afterStart] |] eqn:S; [| done].
  destruct (splitFirst END_MARK afterStart) as [[m q] |] eqn:S2; [| done].
  injection M as -> -> ->.
  split; [by eapply splitFirst_first |].
  pose proof (splitFirst_sound _ _ _ _ S2) as <-.
  by eapply splitFirst_first.
Qed.

(** The marked page with one card. *)
Lemma newsPage_replaces_region_witness :
  exists pre mid post,
    markedTemplate = pre ++ START_MARK ++ mid ++ END_MARK ++ post
    /\ newsPage markedTemplate exampleCard
       = pre ++ START_MARK ++ [0x0A] ++ exampleCard ++ [0x0A] ++ END_MARK ++ post
    /\ (forall a b, markedTemplate = a ++ START_MARK ++ b ->
                    (length pre <= length a)%nat)
    /\ (forall x y, mid ++ END_MARK ++ post = x ++ END_MARK ++ y ->
                    (length mid <= length x)%nat).
Proof.
  apply (newsPage_replaces_region markedTemplate exampleCard).
  - exists (js "<main>"), (js "old"), (js "</main>"). reflexivity.
  - unfold exampleCard.
    match goal with
    | |- Forall _ (js ?s) =>
        let v := eval vm_compute in (js s) in change (js s) with v
    end.
    repeat (constructor; [discriminate |]). constructor.
Defined.

(** ** The plain text and the structure of the body *)

(** X20: the plain-text summary depends on the body only through the
    values of its text nodes in depth-first order: marks, node kinds and
    nesting do not matter, and a missing body counts as a body without
    text. *)
Theorem richToPlain_text_only (rt1 rt2 : option node) (max : Z) :
  textValuesOf rt1 = textValuesOf rt2 ->
  richToPlain rt1 max = richToPlain rt2 max.
Proof. intros E. by rewrite !richToPlain_accumulate, E. Qed.

(** A bold text in a list item and the same text in a paragraph. *)
Lemma richToPlain_text_only_witness :
  richToPlain (Some (document [blockNode "unordered-list"
                                 [blockNode "list-item"
                                    [textNode "Patch 1.2" [js "bold"]]]])) 155
  = richToPlain (Some (document [blockNode "paragraph"
                                   [textNode "Patch 1.2" []]])) 155.
Proof.
  apply (richToPlain_text_only
           (Some (document [blockNode "unordered-list"
                              [blockNode "list-item"
                                 [textNode "Patch 1.2" [js "bold"]]]]))
           (Some (document [blockNode "paragraph" [textNode "Patch 1.2" []]]))
           155).
  reflexivity.
Defined.

(** ** The requests for the script's own candidates *)

Lemma envCandidates_length (envVar : option jsstring) :
  (1 <= length (envCandidates envVar) <= 3)%nat.
Proof.
  unfold envCandidates. cbn [dedupe].
  rewrite bool_decide_eq_false_2 by apply not_elem_of_nil.
  repeat match goal with
         | |- context [bool_decide ?P] => destruct (bool_decide P)
         end; simpl; lia.
Qed.

Section FetchCandidates.

Context {payload World : Type}.
Variable truthyData : payload -> bool.
Variable fetch : World -> jsstring -> jsstring -> World * option (response payload).
Variables SPACE TOKEN : jsstring.

Lemma envLoop_asks_first w e rest w' (log : list (exchange payload)) out :
  envLoop fetch SPACE TOKEN w (e :: rest) = (w', log, out) ->
  head (log.*1) = Some e.
Proof.
  rewrite (envLoop_cons fetch SPACE TOKEN).
  destruct (fetch w _ _) as [w1 res].
  destruct (verdict e res) as [stop |].
  - by intros [= <- <- <-].
  - destruct (envLoop fetch SPACE TOKEN w1 rest) as [[w2 log'] out'].
    by intros [= <- <- <-].
Qed.

(** X21: with the candidates of the script, whatever the network
    answers, at least one and at most three requests are made, the
    first one for the configured environment (master when none is
    configured), and no environment is asked twice. *)
Theorem fetch_requests_bounded (envVar : option jsstring) (w : World)
    (log : list (exchange payload)) out :
  fetchEntries truthyData fetch SPACE TOKEN w (envCandidates envVar) = (log, out) ->
  (1 <= length log <= 3)%nat
  /\ head (log.*1)
     = Some (if truthy (orEmpty envVar) then orEmpty envVar else js "master")
  /\ NoDup (log.*1).
Proof.
  intros F.
  destruct (fetchEntries_loop truthyData fetch SPACE TOKEN _ _ _ _ F)
    as (w' & out' & L & _).
  destruct (envLoop_inv fetch SPACE TOKEN _ _ _ _ _ L) as [P _].
  destruct (envCandidates_facts envVar) as (H & D & _).
  pose proof (envCandidates_length envVar) as Len.
  destruct (envCandidates envVar) as [| e rest] eqn:E; [simpl in Len; lia |].
  pose proof (envLoop_asks_first _ _ _ _ _ _ L) as First.
  split; [| split].
  - apply (f_equal length) in P. rewrite length_fmap, length_take in P.
    destruct log; [done |]. simpl in *. lia.
  - rewrite First. by simpl in H.
  - rewrite P. eapply sublist_NoDup; [exact D | apply sublist_take].
Qed.

End FetchCandidates.

(** The script with CONTENTFUL_ENV set to staging, on the network where
    master answers. *)
Lemma fetch_requests_bounded_witness :
  let log := [(js "staging", Some {| status := 404; body := None |});
              (js "master",
               Some {| status := 200; body := Some (js "entries of master") |})] in
  (1 <= length log <= 3)%nat
  /\ head (log.*1) = Some (js "staging")
  /\ NoDup (log.*1).
Proof.
  cbv zeta.
  apply (fetch_requests_bounded truthy net404 (js "sp4ce") (js "t0ken")
           (Some (js "staging")) 0%nat _
           (Done (js "entries of master", js "master"))).
  reflexivity.
Defined.

(** ** The value of a text node in its rendering *)

Section TextFacts.

Variable assets : gmap jsstring assetInfo.

Lemma wrapOutward_frame marksRev :
  exists opening closing,
    forall inner, wrapOutward marksRev inner = opening ++ inner ++ closing.
Proof.
  induction marksRev as [| m earlier (o & c & IH)].
  - exists [], []. intros inner. by rewrite app_nil_r.
  - cbn [wrapOutward]. destruct (markTag m) as [t |].
    + exists (js "<" ++ t ++ js ">" ++ o), (c ++ js "</" ++ t ++ js ">").
      intros inner. rewrite IH. by rewrite <- !app_assoc.
    + exists o, c. exact IH.
Qed.

(** X22: the marks of a text node fix an opening and a closing string
    of tags, and the node renders as the opening, the escaped value
    and the closing: the value reaches the page only through [esc], so
    that it adds no tag and no quote of its own. *)
Theorem text_value_only_escaped (ms : option (list jsstring)) :
  exists opening closing,
    forall n, nodeType n = js "text" -> marks n = ms ->
      renderNode assets n = opening ++ esc (orEmpty (value n)) ++ closing
      /\ Forall inert (esc (orEmpty (value n))).
Proof.
  destruct (wrapOutward_frame (rev (orNil ms))) as (o & c & F).
  exists o, c. intros n T M. split; [| apply esc_safe].
  rewrite renderNode_eq. cbv zeta. rewrite T, M.
  change (streq (js "text") (js "text")) with true. cbv iota.
  by rewrite fold_applyMark, F.
Qed.

End TextFacts.

(** A text with angle brackets, in italics. *)
Lemma text_value_only_escaped_witness :
  exists opening closing,
    renderNode ∅ (textNode "<script>" [js "italic"])
    = opening ++ esc (js "<script>") ++ closing.
Proof.
  destruct (text_value_only_escaped ∅ (Some [js "italic"])) as (o & c & H).
  exists o, c.
  apply (H (textNode "<script>" [js "italic"])); reflexivity.
Defined.

(** ** Dollar signs in the cards *)

Lemma getSubstitution_group1 captures matched pre post rest g :
  captures !! 0%nat = Some g ->
  (length captures < 10)%nat ->
  getSubstitution captures matched pre post ([dollar; 0x31] ++ rest)
  = g ++ getSubstitution captures matched pre post rest.
Proof.
  intros G L. cbn [app getSubstitution].
  change (negb (dollar =? dollar)) with false. cbv iota.
  change (0x31 =? dollar) with false.
  change (0x31 =? 38) with false. change (0x31 =? 96) with false.
  change (0x31 =? 39) with false. change (isDigit 0x31) with true. cbv iota.
  change (digitVal 0x31) with 1%nat.
  assert (default [] (captures !! (1 - 1)%nat) = g) as Hg.
  { change (1 - 1)%nat with 0%nat. by rewrite G. }
  assert (bool_decide (1 <= 1 <= length captures)%nat = true) as ->.
  { apply bool_decide_eq_true_2. destruct captures; [done | simpl; lia]. }
  destruct rest as [| d2 r'']; [by rewrite Hg |].
  destruct (isDigit d2) eqn:D; [| by rewrite Hg].
  rewrite bool_decide_eq_false_2 by lia. by rewrite Hg.
Qed.

Lemma newsPage_dollar_one_at (tpl a b : jsstring) pre mid post :
  matchMarkers tpl = Some (pre, mid, post) ->
  Forall (fun c => c <> dollar) a ->
  Forall (fun c => c <> dollar) b ->
  newsPage tpl (a ++ [dollar; 0x31] ++ b)
  = pre ++ START_MARK ++ [0x0A] ++ a ++ START_MARK ++ b ++ [0x0A]
    ++ END_MARK ++ post.
Proof.
  intros M Ha Hb. unfold newsPage. rewrite M. f_equal.
  set (go := getSubstitution [START_MARK; mid; END_MARK]
               (START_MARK ++ mid ++ END_MARK) pre post).
  change (js "$1" ++ [0x0A] ++ (a ++ [dollar; 0x31] ++ b) ++ [0x0A] ++ js "$3")
    with ([dollar; 0x31] ++ [0x0A] ++ (a ++ [dollar; 0x31] ++ b)
          ++ [0x0A; dollar; 0x33]).
  assert (forall t, go ([dollar; 0x31] ++ t) = START_MARK ++ go t) as G1.
  { intros t. unfold go. apply getSubstitution_group1; [done | simpl; lia]. }
  assert (forall p t, Forall (fun c => c <> dollar) p -> go (p ++ t) = p ++ go t)
    as Plain.
  { intros p t Hp. unfold go. by apply getSubstitution_plain. }
  assert (go [0x0A; dollar; 0x33] = 0x0A :: END_MARK) as E by reflexivity.
  rewrite G1, (Plain [0x0A]) by (repeat constructor; discriminate).
  rewrite <- !app_assoc, (Plain a) by done.
  rewrite G1, (Plain b) by done. rewrite E.
  change (0x0A :: END_MARK) with ([0x0A] ++ END_MARK).
  by rewrite <- !app_assoc.
Qed.

(** X23: the cards are used as a replacement pattern, not as text: with
    the markers in place, a dollar sign followed by 1 in a card, as in a
    price of 1, 10 or 100 dollars, is not copied into the page but
    replaced by the start marker. *)
Theorem newsPage_dollar_one (tpl a b : jsstring) :
  hasMarkerPair tpl ->
  Forall (fun c => c <> dollar) a ->
  Forall (fun c => c <> dollar) b ->
  exists pre mid post,
    tpl = pre ++ START_MARK ++ mid ++ END_MARK ++ post
    /\ newsPage tpl (a ++ [dollar; 0x31] ++ b)
       = pre ++ START_MARK ++ [0x0A] ++ a ++ START_MARK ++ b ++ [0x0A]
         ++ END_MARK ++ post.
Proof.
  intros Has Ha Hb.
  destruct (matchMarkers_complete tpl Has) as [[[pre mid] post] M].
  exists pre, mid, post. split; [by apply matchMarkers_sound |].
  by apply (newsPage_dollar_one_at tpl a b pre mid post).
Qed.

(** A card with a price on the marked page. *)
Lemma newsPage_dollar_one_witness :
  exists pre mid post,
    markedTemplate = pre ++ START_MARK ++ mid ++ END_MARK ++ post
    /\ newsPage markedTemplate (js "<p>Only " ++ [dollar; 0x31] ++ js "0</p>")
       = pre ++ START_MARK ++ [0x0A] ++ js "<p>Only " ++ START_MARK ++ js "0</p>"
         ++ [0x0A] ++ END_MARK ++ post.
Proof.
  apply (newsPage_dollar_one markedTemplate (js "<p>Only ") (js "0</p>")).
  - exists (js "<main>"), (js "old"), (js "</main>"). reflexivity.
  - match goal with
    | |- Forall _ (js ?s) =>
        let v := eval vm_compute in (js s) in change (js s) with v
    end.
    repeat (constructor; [discriminate |]). constructor.
  - match goal with
    | |- Forall _ (js ?s) =>
        let v := eval vm_compute in (js s) in change (js s) with v
    end.
    repeat (constructor; [discriminate |]). constructor.
Defined.
